(** * Silhouette extraction of yakumi-tower ([game.js])

    A shallow embedding of [getVerticesFromImage], [spawnNewBody] and
    [createBody], and the properties of the contour pipeline: alpha
    sampling, seed search, boundary tracing, distance simplification,
    scaling and the vertex cache. *)

From Stdlib Require Import ZArith List Lia Bool Reals Lra QArith Qminmax.
From stdpp Require Import base option list gmap strings.
Import ListNotations.

Local Open Scope Z_scope.

(** ** Data model *)

(** A decoded image: [img.width], [img.height] and the RGBA byte array that
    [ctx.getImageData(0, 0, img.width, img.height).data] returns. *)
Record image : Type := Image {
  width : Z;
  height : Z;
  data : list Z
}.

(** The array [getImageData] yields has four bytes per pixel. *)
Definition wellFormed (img : image) : Prop :=
  0 < width img /\ 0 < height img /\
  Z.of_nat (length (data img)) = width img * height img * 4 /\
  Forall (fun a => 0 <= a <= 255) (data img).

(** A JS object [{ x, y }] with integer fields. *)
Record point : Type := Point { px : Z; py : Z }.

(** JS code either returns a value or keeps looping. *)
Inductive run (A : Type) : Type :=
  | Diverges : run A
  | Returns (a : A) : run A.
Arguments Diverges {A}.
Arguments Returns {A} a.

(** ** [getVerticesFromImage] *)

Module Extractor.
Section Extractor.

Variable img : image.
Variable samplingStep : Z.

Definition alphaThreshold : Z := 10.

(** [data[index] > alphaThreshold]; a read past the end of the array is
    [undefined], and [undefined > 10] is false. *)
Definition getVal (x y : Z) : Z :=
  if (x <? 0) || (y <? 0) || (x >=? width img) || (y >=? height img) then 0
  else
    let index := (y * width img + x) * 4 + 3 in
    match data img !! Z.to_nat index with
    | Some a => if a >? alphaThreshold then 1 else 0
    | None => 0
    end.

Definition isSolid (x y : Z) : bool := getVal x y =? 1.

(** [for (let x = 0; x < w; x += samplingStep)] of the seed search, at row
    [y] and from the current [x]: the first solid [x], if the row has one.
    [fuel] bounds the iterations; the loop that uses it up does not end. *)
Fixpoint scanRow (fuel : nat) (y x : Z) : run (option Z) :=
  match fuel with
  | O => Diverges
  | S fuel' =>
      if x <? width img then
        if getVal x y =? 1 then Returns (Some x)
        else scanRow fuel' y (x + samplingStep)
      else Returns None
  end.

(** [for (let y = 0; y < h; y += samplingStep)] around [scanRow], from the
    current [y]. *)
Fixpoint scanGrid (fuel : nat) (y : Z) : run (option point) :=
  match fuel with
  | O => Diverges
  | S fuel' =>
      if y <? height img then
        match scanRow (S (Z.to_nat (width img))) y 0 with
        | Diverges => Diverges
        | Returns (Some x) => Returns (Some (Point x y))
        | Returns None => scanGrid fuel' (y + samplingStep)
        end
      else Returns None
  end.

(** Both seed searches of the function run this scan from [(0, 0)]. *)
Definition findSeed : run (option point) :=
  scanGrid (S (Z.to_nat (height img))) 0.

(** *** Boundary tracer *)

Definition step : Z := samplingStep.

Definition checkDirs (dir : Z) : list Z :=
  [(dir + 3) mod 4; dir; (dir + 1) mod 4; (dir + 2) mod 4].

(** The four [if (d === k)] updates of [nx], [ny]. *)
Definition candidate (d cx cy : Z) : Z * Z :=
  let nx := cx in
  let ny := cy in
  let nx := if d =? 0 then nx + step else nx in
  let ny := if d =? 1 then ny + step else ny in
  let nx := if d =? 2 then nx - step else nx in
  let ny := if d =? 3 then ny - step else ny in
  (nx, ny).

(** [for (let d of checkDirs)]: the first direction whose target is
    solid, as the new [(cx, cy, dir)]; [None] is [found === false]. *)
Fixpoint tryDirs (ds : list Z) (cx cy : Z) : option (Z * Z * Z) :=
  match ds with
  | [] => None
  | d :: ds' =>
      let '(nx, ny) := candidate d cx cy in
      if isSolid nx ny then Some (nx, ny, d) else tryDirs ds' cx cy
  end.

Definition nextStep (cx cy dir : Z) : option (Z * Z * Z) :=
  tryDirs (checkDirs dir) cx cy.

(** [let maxIter = 5000]. *)
Definition maxIter : nat := 5000.

(** The [do ... while] loop, entered at [(cx, cy, dir)] when the variable
    [maxIter] holds [iter]: the points it pushes onto [path].  [iter'] is
    [maxIter] after [maxIter--]. *)
Fixpoint traceFrom (sx sy : Z) (iter : nat) (cx cy dir : Z) : list point :=
  match iter with
  | O => []
  | S iter' =>
      Point cx cy ::
      match nextStep cx cy dir with
      | None => []
      | Some (nx, ny, d) =>
          if (negb (nx =? sx) || negb (ny =? sy)) && (0 <? Z.of_nat iter')
          then traceFrom sx sy iter' nx ny d
          else []
      end
  end.

(** *** Distance filter *)

(** [Math.hypot(p1.x - p2.x, p1.y - p2.y) > 15] on integer coordinates:
    the square of the distance is compared with 225. *)
Definition far (p1 p2 : point) : bool :=
  15 * 15 <? (px p1 - px p2) * (px p1 - px p2) + (py p1 - py p2) * (py p1 - py p2).

(** One iteration of the [for (let i = 1; ...)] loop.  [simplified] holds
    [path[0]] when the loop runs, so its last element exists. *)
Definition simplifyStep (simplified : list point) (p2 : point) : list point :=
  match last simplified with
  | Some p1 => if far p1 p2 then simplified ++ [p2] else simplified
  | None => simplified
  end.

Definition simplify (path : list point) : list point :=
  match path with
  | [] => []
  | p0 :: rest => fold_left simplifyStep rest [p0]
  end.

(** *** The whole function; [None] is JS [null]. *)
Definition getVerticesFromImage : run (option (list point)) :=
  match findSeed with
  | Diverges => Diverges
  | Returns None => Returns None
  | Returns (Some startPoint) =>
      match findSeed with
      | Diverges => Diverges
      | Returns found =>
          let '(sx, sy) :=
            match found with
            | Some p => (px p, py p)
            | None => (-1, -1)
            end in
          if sx =? -1 then Returns None
          else
            let path := traceFrom sx sy maxIter sx sy 0 in
            let simplified := simplify path in
            Returns (Some (map (fun p => Point (px p) (py p)) simplified))
      end
  end.

End Extractor.
End Extractor.

Import Extractor.

(** ** Directions of the tracer

    The tracer numbers its directions 0: right, 1: down, 2: left, 3: up,
    on a raster whose [y] axis points down the screen. *)

Inductive heading : Type := Right | Down | Left | Up.

Definition code (hd : heading) : Z :=
  match hd with Right => 0 | Down => 1 | Left => 2 | Up => 3 end.

Definition headingOf (dir : Z) : option heading :=
  if dir =? 0 then Some Right
  else if dir =? 1 then Some Down
  else if dir =? 2 then Some Left
  else if dir =? 3 then Some Up
  else None.

(** Unit displacement of a heading, in raster coordinates. *)
Definition delta (hd : heading) : Z * Z :=
  match hd with
  | Right => (1, 0)
  | Down => (0, 1)
  | Left => (-1, 0)
  | Up => (0, -1)
  end.

(** Turning right is a quarter turn clockwise as seen on the screen: a
    walker heading right then heads down. *)
Definition turnRight (hd : heading) : heading :=
  match hd with Right => Down | Down => Left | Left => Up | Up => Right end.

Definition turnLeft (hd : heading) : heading :=
  match hd with Right => Up | Up => Left | Left => Down | Down => Right end.

Definition reverse (hd : heading) : heading :=
  match hd with Right => Left | Left => Right | Up => Down | Down => Up end.

(** Clockwise quarter turn of a raster vector ([y] down). *)
Definition clockwise (v : Z * Z) : Z * Z := (- snd v, fst v).

(** The candidate order "right turn, straight, left turn, reverse". *)
Definition rightFirstDirs (hd : heading) : list Z :=
  [code (turnRight hd); code hd; code (turnLeft hd); code (reverse hd)].

(** The candidate order "left turn, straight, right turn, reverse". *)
Definition leftFirstDirs (hd : heading) : list Z :=
  [code (turnLeft hd); code hd; code (turnRight hd); code (reverse hd)].

(** The state after [n] accepted moves of the tracer from [s]. *)
Fixpoint walk (img : image) (samplingStep : Z) (n : nat) (s : Z * Z * Z)
  : option (Z * Z * Z) :=
  match n with
  | O => Some s
  | S n' =>
      match walk img samplingStep n' s with
      | Some (cx, cy, dir) => nextStep img samplingStep cx cy dir
      | None => None
      end
  end.

(** ** Pixels and distances *)

(** The alpha byte of pixel [(x, y)] in the row-major RGBA array. *)
Definition alphaAt (img : image) (x y : Z) : option Z :=
  data img !! Z.to_nat ((y * width img + x) * 4 + 3).

Definition inside (img : image) (x y : Z) : Prop :=
  0 <= x < width img /\ 0 <= y < height img.

(** The Euclidean length [Math.hypot] approximates. *)
Definition hypot (dx dy : Z) : R := sqrt (IZR (dx * dx + dy * dy)).

Definition distance (p q : point) : R := hypot (px p - px q) (py p - py q).

(** The points the distance filter appends after the kept point [q]. *)
Fixpoint keepFrom (q : point) (l : list point) : list point :=
  match l with
  | [] => []
  | p :: l' => if far q p then p :: keepFrom p l' else keepFrom q l'
  end.

(** The last point kept after [q] when a further segment [l] is filtered. *)
Definition lastKept (q : point) (l : list point) : point :=
  default q (last (keepFrom q l)).

(** ** Sampling grid and regions *)

(** [(x, y)] is visited by the seed search: a grid point inside the image. *)
Definition sampled (img : image) (samplingStep x y : Z) : Prop :=
  exists i j, 0 <= i /\ 0 <= j /\ x = i * samplingStep /\ y = j * samplingStep /\
              x < width img /\ y < height img.

(** [(x, y)] comes before [(sx, sy)] in the row-major scan. *)
Definition scannedBefore (x y sx sy : Z) : Prop :=
  y < sy \/ (y = sy /\ x < sx).

(** The first solid grid point in scan order. *)
Definition firstSolidSample (img : image) (samplingStep sx sy : Z) : Prop :=
  sampled img samplingStep sx sy /\
  getVal img sx sy = 1 /\
  forall x y, sampled img samplingStep x y -> scannedBefore x y sx sy ->
              getVal img x y = 0.

(** The opaque pixels of [img] are those of the rectangle
    [x0 <= x < x1], [y0 <= y < y1]. *)
Definition rectRegion (img : image) (x0 y0 x1 y1 : Z) : Prop :=
  forall x y, getVal img x y = 1 <-> (x0 <= x < x1 /\ y0 <= y < y1).

(** Decision procedure for [rectRegion] on a concrete image. *)
Definition checkRect (img : image) (x0 y0 x1 y1 : Z) : bool :=
  (0 <=? x0) && (x1 <=? width img) && (0 <=? y0) && (y1 <=? height img) &&
  forallb (fun y =>
    forallb (fun x =>
      Bool.eqb (getVal img x y =? 1)
               ((x0 <=? x) && (x <? x1) && (y0 <=? y) && (y <? y1)))
      (seqZ 0 (width img)))
    (seqZ 0 (height img)).

(** Bounding box [(minX, minY, maxX, maxY)] of a non-empty point list. *)
Definition boundingBox (pts : list point) : option (Z * Z * Z * Z) :=
  match pts with
  | [] => None
  | p :: rest =>
      Some (fold_left (fun '(a, b, c, d) q =>
              (Z.min a (px q), Z.min b (py q), Z.max c (px q), Z.max d (py q)))
            rest (px p, py p, px p, py p))
  end.

(** [k] points from [(x, y)] in steps of [(dx, dy)]. *)
Fixpoint line (k : nat) (x y dx dy : Z) : list point :=
  match k with
  | O => []
  | S k' => Point x y :: line k' (x + dx) (y + dy) dx dy
  end.

(** The top row, right column and bottom row of the grid rectangle
    [a..b] x [c..d] of spacing [s], in the order the tracer visits them,
    each up to its far corner. *)
Definition topSide (s a b c : Z) : list point :=
  line (Z.to_nat (b - a)) (s * a) (s * c) s 0 ++ [Point (s * b) (s * c)].

Definition rightSide (s b c d : Z) : list point :=
  line (Z.to_nat (d - c - 1)) (s * b) (s * (c + 1)) 0 s ++ [Point (s * b) (s * d)].

Definition bottomSide (s a b d : Z) : list point :=
  line (Z.to_nat (b - a - 1)) (s * (b - 1)) (s * d) (- s) 0 ++ [Point (s * a) (s * d)].

(** An image of [w] x [h] pixels, of alpha 255 where [opaque] holds and 0
    elsewhere. *)
Definition raster (w h : Z) (opaque : Z -> Z -> bool) : image :=
  Image w h
    (flat_map (fun i : nat =>
       let x := Z.of_nat i mod w in
       let y := Z.of_nat i / w in
       [0; 0; 0; if opaque x y then 255 else 0])
     (seq 0 (Z.to_nat (w * h)))).

Definition opaqueSquare (n : Z) : image := raster n n (fun _ _ => true).

(** ** [spawnNewBody] and [createBody] *)

(** The arithmetic of JS numbers the pipeline uses on scaled values.  It is
    kept abstract: the properties below do not depend on rounding. *)
Class JsNumber (num : Type) : Type := {
  ofZ : Z -> num;
  ndiv : num -> num -> num;
  nmul : num -> num -> num;
  nmin : num -> num -> num
}.

Module Game.
Section Game.

Context {num : Type} `{JsNumber num}.

(** A scaled vertex [{ x: v.x * scale, y: v.y * scale }]. *)
Definition vertex : Type := (num * num)%type.

(** The value stored in [vertexCache]: [{ vertices, scale, img }]. *)
Record entry : Type := Entry {
  vertices : option (list vertex);
  scale : num;
  img : image
}.

(** What is handed to Matter: [Bodies.fromVertices] or [Bodies.rectangle]. *)
Inductive shape : Type :=
  | Polygon (vs : list vertex)
  | Rectangle (w h : num).

Record spriteData : Type := Sprite {
  texture : string;
  xScale : num;
  yScale : num
}.

Record body : Type := Body {
  bodyX : num;
  bodyY : num;
  bodyShape : shape;
  sprite : spriteData
}.

(** Whether [Bodies.fromVertices] builds a body from the vertices (it
    returns a falsy value when the decomposition yields no part). *)
Variable fromVertices : list vertex -> bool.

(** The image an asset path decodes to. *)
Variable decode : string -> image.

(** [window.innerWidth]. *)
Variable innerWidth : Z.

Definition maxDim : num := ofZ 120.

Definition scaleOf (im : image) : num :=
  nmin (ndiv maxDim (ofZ (width im))) (ndiv maxDim (ofZ (height im))).

Definition scaleVertices (s : num) (raw : list point) : list vertex :=
  map (fun v => (nmul (ofZ (px v)) s, nmul (ofZ (py v)) s)) raw.

(** The body [createBody(x, y, assetPath, data)] builds. *)
Definition createdBody (x y : num) (assetPath : string) (d : entry) : body :=
  let spriteData := Sprite assetPath (scale d) (scale d) in
  let rectangle :=
    Rectangle (nmul (ofZ (width (img d))) (scale d))
              (nmul (ofZ (height (img d))) (scale d)) in
  match vertices d with
  | Some vs =>
      if fromVertices vs then Body x y (Polygon vs) spriteData
      else Body x y rectangle spriteData
  | None => Body x y rectangle spriteData
  end.

(** The cache entry the [onload] handler stores for a decoded image. *)
Definition entryOf (im : image) : run entry :=
  let scale := scaleOf im in
  match getVerticesFromImage im 4 with
  | Diverges => Diverges
  | Returns rawVertices =>
      let vertices := option_map (scaleVertices scale) rawVertices in
      match vertices with
      | Some vs =>
          if (2 <? Z.of_nat (length vs))
          then Returns (Entry (Some vs) scale im)
          else Returns (Entry None scale im)
      | None => Returns (Entry None scale im)
      end
  end.

(** The globals the pipeline reads and writes, with the [Image] objects
    whose [onload] has not fired yet ([loading], by asset path) and a log
    of the calls of [getVerticesFromImage] ([extracted]). *)
Record game : Type := GameState {
  vertexCache : gmap string entry;
  gameOver : bool;
  currentBody : option body;
  isDropping : bool;
  world : list body;
  loading : list string;
  extracted : list string
}.

Definition initial : game :=
  GameState ∅ false None false [] [] [].

Definition startX : num := ndiv (ofZ innerWidth) (ofZ 2).
Definition startY : num := ofZ 100.

Definition createBody (g : game) (x y : num) (assetPath : string) (d : entry) : game :=
  let body := createdBody x y assetPath d in
  GameState (vertexCache g) (gameOver g) (Some body) false
            (world g ++ [body]) (loading g) (extracted g).

(** [spawnNewBody] when [Math.random] selects [randomAsset]. *)
Definition spawnNewBody (g : game) (randomAsset : string) : game :=
  if gameOver g then g
  else
    match vertexCache g !! randomAsset with
    | Some d => createBody g startX startY randomAsset d
    | None =>
        GameState (vertexCache g) (gameOver g) (currentBody g) (isDropping g)
                  (world g) (loading g ++ [randomAsset]) (extracted g)
    end.

(** The [img.onload] handler of the [i]-th image still loading. *)
Definition onload (g : game) (i : nat) : run game :=
  match loading g !! i with
  | None => Returns g
  | Some randomAsset =>
      let g := GameState (vertexCache g) (gameOver g) (currentBody g)
                         (isDropping g) (world g) (delete i (loading g))
                         (extracted g) in
      if gameOver g then Returns g
      else
        match entryOf (decode randomAsset) with
        | Diverges => Diverges
        | Returns d =>
            let g := GameState (<[randomAsset := d]> (vertexCache g)) (gameOver g)
                               (currentBody g) (isDropping g) (world g)
                               (loading g) (extracted g ++ [randomAsset]) in
            Returns (createBody g startX startY randomAsset d)
        end
  end.

Definition startGame (g : game) (randomAsset : string) : game :=
  let g := GameState (vertexCache g) false (currentBody g) (isDropping g)
                     [] (loading g) (extracted g) in
  spawnNewBody g randomAsset.

Definition endGame (g : game) : game :=
  if gameOver g then g
  else GameState (vertexCache g) true (currentBody g) (isDropping g)
                 (world g) (loading g) (extracted g).

(** What can happen to the pipeline. *)
Inductive event : Type :=
  | Spawn (randomAsset : string)
  | Loaded (i : nat)
  | Start (randomAsset : string)
  | Over.

Definition handle (g : game) (e : event) : run game :=
  match e with
  | Spawn a => Returns (spawnNewBody g a)
  | Loaded i => onload g i
  | Start a => Returns (startGame g a)
  | Over => Returns (endGame g)
  end.

Fixpoint handleAll (g : game) (es : list event) : run game :=
  match es with
  | [] => Returns g
  | e :: es' =>
      match handle g e with
      | Diverges => Diverges
      | Returns g' => handleAll g' es'
      end
  end.

(** How often [getVerticesFromImage] ran for [asset]. *)
Definition extractions (g : game) (asset : string) : nat :=
  length (filter (fun a => a = asset) (extracted g)).

(** Loads of [asset] still in flight. *)
Definition pendingLoads (g : game) (asset : string) : nat :=
  length (filter (fun a => a = asset) (loading g)).

(** Calls of [spawnNewBody] (directly or through [startGame]) that drew
    [asset]. *)
Definition isRequest (asset : string) (e : event) : bool :=
  match e with
  | Spawn a | Start a => bool_decide (a = asset)
  | Loaded _ | Over => false
  end.

Definition requests (es : list event) (asset : string) : nat :=
  length (List.filter (isRequest asset) es).

(** Every cached entry is the one the handler computes from the decoded
    asset, every body in the world is built from that entry, and an asset
    is cached exactly when extraction ran for it. *)
Definition coherent (g : game) : Prop :=
  (forall a e, vertexCache g !! a = Some e -> entryOf (decode a) = Returns e) /\
  (forall bd, In bd (world g) ->
     exists e, entryOf (decode (texture (sprite bd))) = Returns e /\
               bd = createdBody startX startY (texture (sprite bd)) e) /\
  (forall a, vertexCache g !! a = None <-> extractions g a = 0%nat).

(** Extraction runs and loads in flight are covered by requests. *)
Definition accounted (g : game) (es : list event) : Prop :=
  forall a, (extractions g a + pendingLoads g a <= requests es a)%nat.

End Game.
End Game.

(** Rational arithmetic, to run the pipeline on examples. *)
Global Instance QNumber : JsNumber Q := {
  ofZ := inject_Z;
  ndiv := Qdiv;
  nmul := Qmult;
  nmin := Qmin
}.

(** A session in which every asset decodes to a fully opaque 8x8 image and
    [Bodies.fromVertices] always succeeds. *)
Definition demoDecode (asset : string) : image := opaqueSquare 8.
Definition demoFromVertices (vs : list (Q * Q)) : bool := true.

Definition demoSession (es : list Game.event) : run (@Game.game Q) :=
  Game.handleAll demoFromVertices demoDecode 800 Game.initial es.

(** ** Further parts of [game.js] *)

(** The left column of the grid rectangle [a..b] x [c..d], walked upwards
    from the point above the bottom-left corner to the point below the
    seed: the last stretch of the trace. *)
Definition leftSide (s a c d : Z) : list point :=
  line (Z.to_nat (d - c - 1)) (s * a) (s * (d - 1)) 0 (- s).

(** *** [saveScore] *)

Module Ranking.

(** An element [{ name, score }] of the array kept under ['atb_ranking']. *)
Record rankEntry : Type := RankEntry { name : string; score : Z }.

(** [ranking.sort((a, b) => b.score - a.score)]: [Array.prototype.sort] is
    stable, so the result is the arrangement by descending score in which
    entries of equal score keep their order.  [insertDesc e l] puts [e], which
    stood before the entries of [l], into the sorted [l]. *)
Fixpoint insertDesc (e : rankEntry) (l : list rankEntry) : list rankEntry :=
  match l with
  | [] => [e]
  | b :: l' => if score e <? score b then b :: insertDesc e l' else e :: b :: l'
  end.

Fixpoint sortDesc (l : list rankEntry) : list rankEntry :=
  match l with
  | [] => []
  | e :: l' => insertDesc e (sortDesc l')
  end.

(** [localStorage] at the key ['atb_ranking']: [None] when [getItem] gives
    [null], else the array whose JSON text is stored. *)
Definition storage : Type := option (list rankEntry).

(** [JSON.parse(localStorage.getItem('atb_ranking') || '[]')]. *)
Definition loadRanking (st : storage) : list rankEntry := default [] st.

(** [playerNameInput.value.trim() || 'No Name'], for the result [trimmed] of
    [trim]: the empty string is falsy. *)
Definition playerName (trimmed : string) : string :=
  if decide (trimmed = "") then "No Name" else trimmed.

(** [saveScore], as the new content of the storage, when the input field
    trims to [trimmed] and the global [score] is [sc]. *)
Definition saveScore (st : storage) (trimmed : string) (sc : Z) : storage :=
  let name := playerName trimmed in
  let ranking := loadRanking st ++ [RankEntry name sc] in
  let ranking := sortDesc ranking in
  let topRanking := take 5 ranking in
  Some topRanking.

(** Scores in descending order. *)
Fixpoint descending (l : list rankEntry) : Prop :=
  match l with
  | [] => True
  | e :: l' => (forall b, In b l' -> score b <= score e) /\ descending l'
  end.

End Ranking.

(** *** Pointer and rendering handlers *)

Module Play.
Section Play.

Context {num : Type} `{JsNumber num}.

(** Unary minus of JS numbers. *)
Variable nneg : num -> num.

(** [Math.min(Math.max(e.clientX, 50), width - 50)], for a pointer position
    in whole pixels; [width] is [window.innerWidth]. *)
Definition clampX (clientX innerWidth : Z) : Z :=
  Z.min (Z.max clientX 50) (innerWidth - 50).

(** The [mousemove] handler: the position it passes to
    [Matter.Body.setPosition], or [None] when it does not call it. *)
Definition mousemove (gameStarted : bool) (g : @Game.game num) (innerWidth clientX : Z)
  : option (Z * Z) :=
  if gameStarted && bool_decide (is_Some (Game.currentBody g))
     && negb (Game.isDropping g) && negb (Game.gameOver g)
  then Some (clampX clientX innerWidth, 100)
  else None.

(** The [afterRender] handler for one body: the offset and size it passes
    to [ctx.drawImage], or [None] when the texture is not in the cache. *)
Definition drawImageArgs (g : @Game.game num) (bd : @Game.body num)
  : option (num * num * num * num) :=
  let sprite := Game.sprite bd in
  match Game.vertexCache g !! Game.texture sprite with
  | Some e =>
      let img := Game.img e in
      Some (ndiv (nmul (nneg (ofZ (width img))) (Game.xScale sprite)) (ofZ 2),
            ndiv (nmul (nneg (ofZ (height img))) (Game.yScale sprite)) (ofZ 2),
            nmul (ofZ (width img)) (Game.xScale sprite),
            nmul (ofZ (height img)) (Game.yScale sprite))
  | None => None
  end.

End Play.
End Play.

(** * Properties *)

(** ** Alpha mask sampler *)

Lemma getVal_outside img x y : ~ inside img x y -> getVal img x y = 0.
Proof.
  unfold inside, getVal. intros Hout.
  destruct (x <? 0) eqn:E1; [reflexivity|].
  destruct (y <? 0) eqn:E2; [reflexivity|].
  destruct (x >=? width img) eqn:E3; [reflexivity|].
  destruct (y >=? height img) eqn:E4; [reflexivity|].
  exfalso. apply Hout. lia.
Qed.

Lemma getVal_inside img x y :
  inside img x y ->
  getVal img x y =
    match alphaAt img x y with
    | Some a => if a >? 10 then 1 else 0
    | None => 0
    end.
Proof.
  unfold inside, getVal, alphaAt, alphaThreshold. intros [Hx Hy].
  destruct (x <? 0) eqn:E1; [lia|].
  destruct (y <? 0) eqn:E2; [lia|].
  destruct (x >=? width img) eqn:E3; [lia|].
  destruct (y >=? height img) eqn:E4; [lia|].
  reflexivity.
Qed.

Lemma getVal_01 img x y : getVal img x y = 0 \/ getVal img x y = 1.
Proof.
  unfold getVal.
  destruct (_ || _); [now left|].
  destruct (data img !! _) as [a|]; [|now left].
  destruct (a >? alphaThreshold); [now right | now left].
Qed.

Lemma getVal_solid_inside img x y : getVal img x y = 1 -> inside img x y.
Proof.
  intros Hs. destruct (decide (inside img x y)) as [Hin|Hout]; [exact Hin|].
  - apply getVal_outside in Hout. congruence.
Qed.

Lemma getVal_not1 img x y : getVal img x y <> 1 <-> getVal img x y = 0.
Proof. destruct (getVal_01 img x y); lia. Qed.

Lemma isSolid_true img x y : isSolid img x y = true <-> getVal img x y = 1.
Proof. unfold isSolid. apply Z.eqb_eq. Qed.

Lemma isSolid_false img x y : isSolid img x y = false <-> getVal img x y = 0.
Proof. unfold isSolid. rewrite Z.eqb_neq. apply getVal_not1. Qed.

(** In a well-formed image every pixel inside the bounds has an alpha byte. *)
Lemma alphaAt_defined img x y :
  wellFormed img -> inside img x y -> is_Some (alphaAt img x y).
Proof.
  intros (Hw & Hh & Hlen & _) [Hx Hy]. unfold alphaAt.
  apply lookup_lt_is_Some. nia.
Qed.

(** C7, as the code has it: a coordinate is solid exactly when it lies in
    [0, width) x [0, height) and the alpha byte of that pixel is strictly
    greater than the threshold 10; every other coordinate, in particular
    every coordinate outside the bounds, is empty. *)
Theorem sampler_solid_iff img x y :
  (getVal img x y = 1 <->
     inside img x y /\ exists a, alphaAt img x y = Some a /\ alphaThreshold < a) /\
  (getVal img x y = 0 <->
     ~ (inside img x y /\ exists a, alphaAt img x y = Some a /\ alphaThreshold < a)).
Proof.
  assert (Hiff : getVal img x y = 1 <->
     inside img x y /\ exists a, alphaAt img x y = Some a /\ alphaThreshold < a).
  { split.
    - intros Hs. pose proof (getVal_solid_inside _ _ _ Hs) as Hin.
      split; [exact Hin|]. rewrite (getVal_inside _ _ _ Hin) in Hs.
      destruct (alphaAt img x y) as [a|]; [|discriminate].
      exists a. split; [reflexivity|]. unfold alphaThreshold.
      destruct (a >? 10) eqn:E; [lia | discriminate].
    - intros (Hin & a & Ha & Hgt). rewrite (getVal_inside _ _ _ Hin), Ha.
      unfold alphaThreshold in Hgt. destruct (a >? 10) eqn:E; [reflexivity | lia]. }
  split; [exact Hiff|].
  rewrite <- Hiff. symmetry. apply getVal_not1.
Qed.

(** C7, as stated, fails: a pixel of alpha exactly 10 meets the threshold
    but is classified empty. *)
Lemma sampler_alpha_10_empty :
  let im := Image 1 1 [0; 0; 0; 10] in
  wellFormed im /\
  ~ (getVal im 0 0 = 1 <->
       inside im 0 0 /\ exists a, alphaAt im 0 0 = Some a /\ alphaThreshold <= a).
Proof.
  simpl. split.
  - unfold wellFormed. simpl. repeat split; try lia.
    repeat constructor; lia.
  - intros [_ Hback].
    assert (Hs : getVal (Image 1 1 [0; 0; 0; 10]) 0 0 = 1).
    { apply Hback. split.
      - unfold inside. simpl. lia.
      - exists 10. split; [reflexivity | unfold alphaThreshold; lia]. }
    vm_compute in Hs. discriminate.
Qed.

(** ** Distance filter *)

Lemma far_distance p q : far p q = true <-> (15 < distance p q)%R.
Proof.
  unfold far, distance, hypot.
  set (z := (px p - px q) * (px p - px q) + (py p - py q) * (py p - py q)).
  assert (E : sqrt (IZR (15 * 15)) = 15%R).
  { rewrite mult_IZR. apply sqrt_square. lra. }
  rewrite Z.ltb_lt. split; intros Hlt.
  - rewrite <- E. apply sqrt_lt_1_alt. split.
    + apply IZR_le. lia.
    + apply IZR_lt. exact Hlt.
  - apply lt_IZR. rewrite <- E in Hlt. apply sqrt_lt_0_alt in Hlt. exact Hlt.
Qed.

Lemma fold_simplify_keep l : forall acc q,
  last acc = Some q ->
  fold_left simplifyStep l acc = acc ++ keepFrom q l.
Proof.
  induction l as [|p l IH]; intros acc q Hq; simpl.
  - now rewrite app_nil_r.
  - unfold simplifyStep at 2. rewrite Hq. destruct (far q p).
    + rewrite (IH (acc ++ [p]) p) by apply last_snoc.
      now rewrite <- app_assoc.
    + now apply IH.
Qed.

Lemma simplify_cons p0 rest : simplify (p0 :: rest) = p0 :: keepFrom p0 rest.
Proof. unfold simplify. now rewrite (fold_simplify_keep rest [p0] p0). Qed.

Lemma keepFrom_length l : forall q, (length (keepFrom q l) <= length l)%nat.
Proof.
  induction l as [|p l IH]; intros q; simpl; [lia|].
  destruct (far q p); simpl; [specialize (IH p) | specialize (IH q)]; lia.
Qed.

Lemma default_last_cons (d1 d2 p : point) l :
  default d1 (last (p :: l)) = default d2 (last (p :: l)).
Proof.
  destruct (last (p :: l)) eqn:E; [reflexivity|].
  apply last_None in E. discriminate.
Qed.

Lemma keepFrom_app l1 l2 : forall q,
  keepFrom q (l1 ++ l2) =
  keepFrom q l1 ++ keepFrom (default q (last (keepFrom q l1))) l2.
Proof.
  induction l1 as [|p l1 IH]; intros q; simpl; [reflexivity|].
  destruct (far q p); simpl.
  - rewrite IH. f_equal. f_equal. f_equal.
    destruct (keepFrom p l1) as [|p' k] eqn:E; [reflexivity|].
    rewrite last_cons_cons. apply default_last_cons.
  - apply IH.
Qed.

Lemma simplify_last p0 l :
  last (simplify (p0 :: l)) = Some (default p0 (last (keepFrom p0 l))).
Proof.
  rewrite simplify_cons.
  destruct (keepFrom p0 l) as [|p' k] eqn:E; [reflexivity|].
  rewrite last_cons_cons.
  destruct (last (p' :: k)) eqn:El; [reflexivity|].
  apply last_None in El. discriminate.
Qed.

Lemma simplify_app p0 l1 l2 :
  simplify (p0 :: l1 ++ l2) =
  simplify (p0 :: l1) ++ keepFrom (default p0 (last (keepFrom p0 l1))) l2.
Proof. rewrite !simplify_cons, keepFrom_app. reflexivity. Qed.

(** C6: the filter never lengthens the path, keeps its first point, maps
    the empty path to the empty path, and appends a later point exactly
    when its Euclidean distance from the last kept point exceeds 15. *)
Theorem simplify_spec :
  (forall P, (length (simplify P) <= length P)%nat) /\
  (forall p0 rest, head (simplify (p0 :: rest)) = Some p0) /\
  simplify [] = [] /\
  (forall p0 l1 p l2, exists q later,
     last (simplify (p0 :: l1)) = Some q /\
     simplify (p0 :: l1 ++ p :: l2) = simplify (p0 :: l1 ++ [p]) ++ later /\
     ((15 < distance q p)%R ->
        simplify (p0 :: l1 ++ [p]) = simplify (p0 :: l1) ++ [p]) /\
     (~ (15 < distance q p)%R ->
        simplify (p0 :: l1 ++ [p]) = simplify (p0 :: l1))).
Proof.
  split; [|split; [|split]].
  - intros [|p0 rest]; [simpl; lia|].
    rewrite simplify_cons. simpl. pose proof (keepFrom_length rest p0). lia.
  - intros p0 rest. now rewrite simplify_cons.
  - reflexivity.
  - intros p0 l1 p l2.
    set (q := default p0 (last (keepFrom p0 l1))).
    exists q.
    exists (keepFrom (default p0 (last (keepFrom p0 (l1 ++ [p])))) l2).
    split; [apply simplify_last|].
    split.
    { replace (l1 ++ p :: l2) with ((l1 ++ [p]) ++ l2)
        by now rewrite <- app_assoc.
      apply simplify_app. }
    rewrite simplify_app. fold q. simpl.
    split; intros Hd.
    + apply far_distance in Hd. now rewrite Hd.
    + destruct (far q p) eqn:E.
      * exfalso. apply Hd. now apply far_distance.
      * now rewrite app_nil_r.
Qed.

(** ** Seed search *)

Lemma scanRow_returns img s y : 0 < s -> forall fuel x,
  (Z.to_nat (width img - x) < fuel)%nat ->
  exists r, scanRow img s fuel y x = Returns r.
Proof.
  intros Hs. induction fuel as [|fuel IH]; intros x Hfuel; [lia|]. simpl.
  destruct (x <? width img) eqn:E; [|eauto].
  destruct (getVal img x y =? 1); [eauto|].
  apply IH. apply Z.ltb_lt in E. lia.
Qed.

Lemma scanRow_Some img s y : forall fuel x x',
  scanRow img s fuel y x = Returns (Some x') ->
  exists n, 0 <= n /\ x' = x + n * s /\ x' < width img /\ getVal img x' y = 1 /\
            forall i, 0 <= i < n -> getVal img (x + i * s) y = 0.
Proof.
  induction fuel as [|fuel IH]; intros x x' Hscan; [discriminate|].
  simpl in Hscan.
  destruct (x <? width img) eqn:E; [|discriminate].
  apply Z.ltb_lt in E.
  destruct (getVal img x y =? 1) eqn:Ev.
  - injection Hscan as <-. apply Z.eqb_eq in Ev.
    exists 0. repeat split; lia.
  - apply Z.eqb_neq, getVal_not1 in Ev.
    destruct (IH _ _ Hscan) as (n & Hn & Hx' & Hlt & Hsolid & Hbefore).
    exists (n + 1). repeat split; try lia; try assumption.
    intros i Hi. destruct (decide (i = 0)) as [->|Hne].
    + now rewrite Z.mul_0_l, Z.add_0_r.
    + replace (x + i * s) with (x + s + (i - 1) * s) by lia.
      apply Hbefore. lia.
Qed.

Lemma scanRow_None img s y : 0 < s -> forall fuel x,
  scanRow img s fuel y x = Returns None ->
  forall i, 0 <= i -> x + i * s < width img -> getVal img (x + i * s) y = 0.
Proof.
  intros Hs. induction fuel as [|fuel IH]; intros x Hscan i Hi Hlt; [discriminate|].
  simpl in Hscan.
  destruct (x <? width img) eqn:E.
  - destruct (getVal img x y =? 1) eqn:Ev; [discriminate|].
    apply Z.eqb_neq, getVal_not1 in Ev.
    destruct (decide (i = 0)) as [->|Hne].
    + now rewrite Z.mul_0_l, Z.add_0_r.
    + replace (x + i * s) with (x + s + (i - 1) * s) by lia.
      apply (IH _ Hscan); lia.
  - apply Z.ltb_ge in E. nia.
Qed.

Lemma scanGrid_returns img s : 0 < s -> forall fuel y,
  (Z.to_nat (height img - y) < fuel)%nat ->
  exists r, scanGrid img s fuel y = Returns r.
Proof.
  intros Hs. induction fuel as [|fuel IH]; intros y Hfuel; [lia|]. simpl.
  destruct (y <? height img) eqn:E; [|eauto].
  destruct (scanRow_returns img s y Hs (S (Z.to_nat (width img))) 0) as [r Hr];
    [lia|].
  simpl in Hr. rewrite Hr. destruct r as [x|]; [eauto|].
  apply IH. apply Z.ltb_lt in E. lia.
Qed.

Lemma scanGrid_Some img s : forall fuel y p,
  scanGrid img s fuel y = Returns (Some p) ->
  exists n, 0 <= n /\ py p = y + n * s /\ py p < height img /\
            scanRow img s (S (Z.to_nat (width img))) (py p) 0 = Returns (Some (px p)) /\
            forall i, 0 <= i < n ->
              scanRow img s (S (Z.to_nat (width img))) (y + i * s) 0 = Returns None.
Proof.
  induction fuel as [|fuel IH]; intros y p Hscan; [discriminate|].
  cbn [scanGrid] in Hscan.
  destruct (y <? height img) eqn:E; [|discriminate].
  apply Z.ltb_lt in E.
  destruct (scanRow img s (S (Z.to_nat (width img))) y 0) as [|[x|]] eqn:Er;
    [discriminate| |].
  - injection Hscan as <-. cbn [px py].
    exists 0. repeat split; try lia; try assumption.
  - destruct (IH _ _ Hscan) as (n & Hn & Hy & Hlt & Hrow & Hbefore).
    exists (n + 1). repeat split; try lia; try assumption.
    intros i Hi. destruct (decide (i = 0)) as [->|Hne].
    + now rewrite Z.mul_0_l, Z.add_0_r.
    + replace (y + i * s) with (y + s + (i - 1) * s) by lia.
      apply Hbefore. lia.
Qed.

Lemma scanGrid_None img s : 0 < s -> forall fuel y,
  scanGrid img s fuel y = Returns None ->
  forall i, 0 <= i -> y + i * s < height img ->
    scanRow img s (S (Z.to_nat (width img))) (y + i * s) 0 = Returns None.
Proof.
  intros Hs. induction fuel as [|fuel IH]; intros y Hscan i Hi Hlt; [discriminate|].
  cbn [scanGrid] in Hscan.
  destruct (y <? height img) eqn:E.
  - destruct (scanRow img s (S (Z.to_nat (width img))) y 0) as [|[x|]] eqn:Er;
      [discriminate|discriminate|].
    destruct (decide (i = 0)) as [->|Hne].
    + now rewrite Z.mul_0_l, Z.add_0_r.
    + replace (y + i * s) with (y + s + (i - 1) * s) by lia.
      apply (IH _ Hscan); lia.
  - apply Z.ltb_ge in E. nia.
Qed.

Lemma findSeed_returns img s : 0 < s -> exists r, findSeed img s = Returns r.
Proof. intros Hs. apply scanGrid_returns; [exact Hs | lia]. Qed.

Lemma findSeed_Some img s p :
  0 < s -> findSeed img s = Returns (Some p) ->
  firstSolidSample img s (px p) (py p).
Proof.
  intros Hs Hseed.
  destruct (scanGrid_Some _ _ _ _ _ Hseed) as (n & Hn & Hy & Hlt & Hrow & Hbefore).
  destruct (scanRow_Some _ _ _ _ _ _ Hrow) as (m & Hm & Hx & Hxlt & Hsolid & Hleft).
  split; [|split; [exact Hsolid|]].
  - exists m, n. repeat split; lia.
  - intros x y (i & j & Hi & Hj & -> & -> & Hxw & Hyh) [Hrowb|[Hsame Hcol]].
    + assert (Hjn : 0 <= j < n) by nia.
      specialize (Hbefore j Hjn). rewrite Z.add_0_l in Hbefore.
      pose proof (scanRow_None img s (j * s) Hs _ 0 Hbefore i Hi) as Hz.
      rewrite Z.add_0_l in Hz. apply Hz. lia.
    + assert (j = n) by nia. subst j.
      assert (Him : 0 <= i < m) by nia.
      specialize (Hleft i Him). rewrite Z.add_0_l in Hleft.
      replace (n * s) with (py p) by lia. exact Hleft.
Qed.

Lemma findSeed_None img s :
  0 < s -> findSeed img s = Returns None ->
  forall x y, sampled img s x y -> getVal img x y = 0.
Proof.
  intros Hs Hseed x y (i & j & Hi & Hj & -> & -> & Hxw & Hyh).
  pose proof (scanGrid_None img s Hs _ 0 Hseed j Hj) as Hrow.
  rewrite Z.add_0_l in Hrow. specialize (Hrow ltac:(lia)).
  pose proof (scanRow_None img s (j * s) Hs _ 0 Hrow i Hi) as Hz.
  rewrite Z.add_0_l in Hz. apply Hz. lia.
Qed.

Lemma firstSolidSample_unique img s x1 y1 x2 y2 :
  firstSolidSample img s x1 y1 -> firstSolidSample img s x2 y2 ->
  x1 = x2 /\ y1 = y2.
Proof.
  intros (Hs1 & Hv1 & Hb1) (Hs2 & Hv2 & Hb2).
  destruct (decide (scannedBefore x1 y1 x2 y2)) as [H12|H12].
  { specialize (Hb2 _ _ Hs1 H12). congruence. }
  destruct (decide (scannedBefore x2 y2 x1 y1)) as [H21|H21].
  { specialize (Hb1 _ _ Hs2 H21). congruence. }
  unfold scannedBefore in *. lia.
Qed.

Lemma findSeed_first img s sx sy :
  0 < s -> firstSolidSample img s sx sy ->
  findSeed img s = Returns (Some (Point sx sy)).
Proof.
  intros Hs Hfirst. destruct (findSeed_returns img s Hs) as [[p|] Hr].
  - pose proof (findSeed_Some _ _ _ Hs Hr) as Hp.
    destruct (firstSolidSample_unique _ _ _ _ _ _ Hp Hfirst) as [Hx Hy].
    rewrite Hr. destruct p as [x y]; simpl in *. now subst.
  - destruct Hfirst as (Hsam & Hsolid & _).
    pose proof (findSeed_None _ _ Hs Hr _ _ Hsam). congruence.
Qed.

(** ** Boundary tracer *)

Lemma candidate_code s hd cx cy :
  candidate s (code hd) cx cy = (cx + s * fst (delta hd), cy + s * snd (delta hd)).
Proof. destruct hd; unfold candidate, step; simpl; f_equal; lia. Qed.

(** A candidate is the current point or one of its four grid neighbours. *)
Lemma candidate_cases s d cx cy :
  candidate s d cx cy = (cx, cy) \/
  candidate s d cx cy = (cx + s, cy) \/ candidate s d cx cy = (cx, cy + s) \/
  candidate s d cx cy = (cx - s, cy) \/ candidate s d cx cy = (cx, cy - s).
Proof.
  unfold candidate, step.
  destruct (d =? 0) eqn:E0; destruct (d =? 1) eqn:E1;
    destruct (d =? 2) eqn:E2; destruct (d =? 3) eqn:E3; auto; lia.
Qed.

Lemma tryDirs_Some img s cx cy ds : forall nx ny d,
  tryDirs img s ds cx cy = Some (nx, ny, d) <->
  exists before after,
    ds = before ++ d :: after /\
    Forall (fun d' => isSolid img (fst (candidate s d' cx cy))
                                  (snd (candidate s d' cx cy)) = false) before /\
    candidate s d cx cy = (nx, ny) /\ isSolid img nx ny = true.
Proof.
  induction ds as [|d0 ds IH]; intros nx ny d; cbn [tryDirs].
  - split; [discriminate|]. intros (b & a & Habs & _).
    now destruct b.
  - destruct (candidate s d0 cx cy) as [x0 y0] eqn:Ec.
    destruct (isSolid img x0 y0) eqn:Es.
    + split.
      * intros [= <- <- <-]. exists [], ds. repeat split; auto.
      * intros (b & a & Hds & Hb & Hc & Hsol).
        destruct b as [|d1 b]; simpl in Hds; injection Hds as <- Hds.
        -- rewrite Ec in Hc. now injection Hc as <- <-.
        -- inversion Hb as [|? ? Hd1 _]; subst. rewrite Ec in Hd1. simpl in Hd1.
           congruence.
    + rewrite IH. split.
      * intros (b & a & -> & Hb & Hc & Hsol).
        exists (d0 :: b), a. repeat split; auto.
        constructor; [now rewrite Ec | exact Hb].
      * intros (b & a & Hds & Hb & Hc & Hsol).
        destruct b as [|d1 b]; simpl in Hds; injection Hds as <- Hds.
        -- rewrite Ec in Hc. injection Hc as <- <-. congruence.
        -- inversion Hb; subst. exists b, a. repeat split; auto.
Qed.

Lemma tryDirs_None img s cx cy ds :
  tryDirs img s ds cx cy = None <->
  Forall (fun d' => isSolid img (fst (candidate s d' cx cy))
                                (snd (candidate s d' cx cy)) = false) ds.
Proof.
  induction ds as [|d0 ds IH]; cbn [tryDirs].
  - split; auto.
  - destruct (candidate s d0 cx cy) as [x0 y0] eqn:Ec.
    destruct (isSolid img x0 y0) eqn:Es.
    + split; [discriminate|]. intros Hall. inversion Hall as [|? ? Hd0 _]; subst.
      rewrite Ec in Hd0. simpl in Hd0. congruence.
    + rewrite IH. split.
      * intros Hall. constructor; [now rewrite Ec | exact Hall].
      * intros Hall. now inversion Hall.
Qed.

(** The four directions are the codes 0 to 3. *)
Lemma headingOf_code dir hd : headingOf dir = Some hd <-> dir = code hd.
Proof.
  unfold headingOf.
  destruct (dir =? 0) eqn:E0; [apply Z.eqb_eq in E0|apply Z.eqb_neq in E0];
  [|destruct (dir =? 1) eqn:E1; [apply Z.eqb_eq in E1|apply Z.eqb_neq in E1];
  [|destruct (dir =? 2) eqn:E2; [apply Z.eqb_eq in E2|apply Z.eqb_neq in E2];
  [|destruct (dir =? 3) eqn:E3; [apply Z.eqb_eq in E3|apply Z.eqb_neq in E3]]]];
  destruct hd; cbn [code]; split; intros Heq; try discriminate; try lia;
    reflexivity.
Qed.

Lemma heading_range dir : 0 <= dir < 4 <-> exists hd, dir = code hd.
Proof.
  split.
  - intros Hdir.
    assert (Hc : dir = 0 \/ dir = 1 \/ dir = 2 \/ dir = 3) by lia.
    destruct Hc as [-> | [-> | [-> | ->]]];
      [exists Right|exists Down|exists Left|exists Up]; reflexivity.
  - intros [hd ->]. destruct hd; cbn [code]; lia.
Qed.

(** The tracer's direction stays one of the four. *)
Lemma nextStep_heading img s cx cy hd nx ny d :
  nextStep img s cx cy (code hd) = Some (nx, ny, d) -> exists hd', d = code hd'.
Proof.
  unfold nextStep. intros Hnext.
  apply tryDirs_Some in Hnext as (before & after & Hds & _).
  assert (Hin : In d (checkDirs (code hd))).
  { rewrite Hds. apply in_app_iff. right. now left. }
  destruct hd; cbn in Hin;
    repeat (destruct Hin as [<-|Hin];
            [first [now exists Right | now exists Down
                   | now exists Left | now exists Up]|]);
    destruct Hin.
Qed.

Lemma checkDirs_code hd : checkDirs (code hd) = leftFirstDirs hd.
Proof. now destruct hd. Qed.

Lemma turn_geometry hd :
  delta (turnRight hd) = clockwise (delta hd) /\
  clockwise (delta (turnLeft hd)) = delta hd /\
  delta (reverse hd) = clockwise (clockwise (delta hd)).
Proof. now destruct hd. Qed.

(** C1, as the code has it: from a state heading [hd] the tracer tries the
    neighbours one sampling step away in the order left turn, straight
    ahead, right turn, reverse (turns as seen on the raster, whose y axis
    points down), moves to the first whose target is solid, and stops when
    none of the four is solid. *)
Theorem tracer_candidate_order img s cx cy hd :
  checkDirs (code hd) =
    [code (turnLeft hd); code hd; code (turnRight hd); code (reverse hd)] /\
  (delta (turnRight hd) = clockwise (delta hd) /\
   clockwise (delta (turnLeft hd)) = delta hd /\
   delta (reverse hd) = clockwise (clockwise (delta hd))) /\
  (forall h, candidate s (code h) cx cy =
             (cx + s * fst (delta h), cy + s * snd (delta h))) /\
  (forall nx ny d,
     nextStep img s cx cy (code hd) = Some (nx, ny, d) <->
     exists before after,
       leftFirstDirs hd = before ++ d :: after /\
       Forall (fun d' => isSolid img (fst (candidate s d' cx cy))
                                     (snd (candidate s d' cx cy)) = false) before /\
       candidate s d cx cy = (nx, ny) /\ isSolid img nx ny = true) /\
  (nextStep img s cx cy (code hd) = None <->
     Forall (fun d' => isSolid img (fst (candidate s d' cx cy))
                                   (snd (candidate s d' cx cy)) = false)
            (leftFirstDirs hd)) /\
  (nextStep img s cx cy (code hd) = None ->
     forall sx sy n, traceFrom img s sx sy (S n) cx cy (code hd) = [Point cx cy]).
Proof.
  split; [apply checkDirs_code|].
  split; [apply turn_geometry|].
  split; [intros h; apply candidate_code|].
  unfold nextStep. rewrite checkDirs_code.
  split; [intros nx ny d; apply tryDirs_Some|].
  split; [apply tryDirs_None|].
  intros Hnone sx sy n. simpl. unfold nextStep. rewrite checkDirs_code.
  now rewrite Hnone.
Qed.

(** C1, as stated, fails: on a fully opaque 8x8 image the tracer at the
    seed [(0, 0)], heading right, moves straight on to [(4, 0)], although
    the right-turn neighbour [(0, 4)] is solid and comes first in the
    stated order. *)
Lemma tracer_right_turn_not_first :
  findSeed (opaqueSquare 8) 4 = Returns (Some (Point 0 0)) /\
  nextStep (opaqueSquare 8) 4 0 0 (code Right) = Some (4, 0, code Right) /\
  tryDirs (opaqueSquare 8) 4 (rightFirstDirs Right) 0 0 = Some (0, 4, code Down) /\
  nextStep (opaqueSquare 8) 4 0 0 (code Right)
    <> tryDirs (opaqueSquare 8) 4 (rightFirstDirs Right) 0 0.
Proof. vm_compute. repeat split; discriminate. Qed.

Lemma walk_first img s n : forall cx cy dir,
  walk img s (S n) (cx, cy, dir) =
  match nextStep img s cx cy dir with
  | Some c => walk img s n c
  | None => None
  end.
Proof.
  induction n as [|n IH]; intros cx cy dir.
  - simpl. now destruct (nextStep img s cx cy dir) as [[[? ?] ?]|].
  - change (walk img s (S (S n)) (cx, cy, dir))
      with (match walk img s (S n) (cx, cy, dir) with
            | Some (x, y, d) => nextStep img s x y d
            | None => None
            end).
    rewrite IH. now destruct (nextStep img s cx cy dir) as [[[? ?] ?]|].
Qed.

Lemma traceFrom_S img s sx sy m cx cy dir :
  traceFrom img s sx sy (S m) cx cy dir =
  Point cx cy ::
  match nextStep img s cx cy dir with
  | None => []
  | Some (nx, ny, d) =>
      if (negb (nx =? sx) || negb (ny =? sy)) && (0 <? Z.of_nat m)
      then traceFrom img s sx sy m nx ny d
      else []
  end.
Proof. reflexivity. Qed.

Lemma traceFrom_1 img s sx sy cx cy dir :
  traceFrom img s sx sy 1 cx cy dir = [Point cx cy].
Proof.
  rewrite traceFrom_S.
  destruct (nextStep img s cx cy dir) as [[[nx ny] d]|]; [|reflexivity].
  now rewrite andb_false_r.
Qed.

(** How the loop runs: the path lists the positions of the successive
    states, only its first entry may be the seed, and it ends where no
    neighbour is solid, where the next position is the seed, or when the
    budget is used up. *)
Lemma traceFrom_shape img s sx sy : forall m cx cy dir,
  let path := traceFrom img s sx sy (S m) cx cy dir in
  (1 <= length path <= S m)%nat /\
  head path = Some (Point cx cy) /\
  (forall i, (i < length path)%nat ->
     exists x y d, walk img s i (cx, cy, dir) = Some (x, y, d) /\
                   path !! i = Some (Point x y)) /\
  (forall i, (0 < i < length path)%nat -> path !! i <> Some (Point sx sy)) /\
  (walk img s (length path) (cx, cy, dir) = None \/
   (exists d, walk img s (length path) (cx, cy, dir) = Some (sx, sy, d)) \/
   length path = S m).
Proof.
  induction m as [|m IH]; intros cx cy dir path; subst path.
  - rewrite traceFrom_1. cbn [length head].
    split; [lia|]. split; [reflexivity|]. split; [|split].
    + intros [|i] Hi; [|lia]. exists cx, cy, dir. now split.
    + intros i Hi. lia.
    + right. now right.
  - rewrite traceFrom_S.
    destruct (nextStep img s cx cy dir) as [[[nx ny] d]|] eqn:En.
    2:{ cbn [length head].
        split; [lia|]. split; [reflexivity|]. split; [|split].
        - intros [|i] Hi; [|lia]. exists cx, cy, dir. now split.
        - intros i Hi. lia.
        - left. cbn [walk]. exact En. }
    destruct (negb (nx =? sx) || negb (ny =? sy)) eqn:Ens.
    2:{ cbn [andb length head].
        split; [lia|]. split; [reflexivity|]. split; [|split].
        - intros [|i] Hi; [|lia]. exists cx, cy, dir. now split.
        - intros i Hi. lia.
        - right. left. exists d. cbn [walk]. rewrite En.
          apply orb_false_iff in Ens as [Ex Ey].
          apply negb_false_iff, Z.eqb_eq in Ex.
          apply negb_false_iff, Z.eqb_eq in Ey. now subst. }
    replace (0 <? Z.of_nat (S m)) with true by (symmetry; apply Z.ltb_lt; lia).
    cbn [andb].
    pose proof (IH nx ny d) as IHn. cbv zeta in IHn.
    destruct IHn as (Hlen & Hhead & Hwalk & Hseed & Hend).
    set (tl := traceFrom img s sx sy (S m) nx ny d) in *.
    cbn [length head].
    split; [lia|]. split; [reflexivity|].
    split; [|split].
    + intros [|i] Hi.
      * exists cx, cy, dir. now split.
      * destruct (Hwalk i ltac:(lia)) as (x & y & d' & Hw & Hl).
        exists x, y, d'. rewrite walk_first, En. now split.
    + intros [|i] Hi; [lia|].
      change (tl !! i <> Some (Point sx sy)).
      destruct i as [|i].
      * destruct tl as [|p tl']; [discriminate|]. simpl in *.
        injection Hhead as ->. intros [= -> ->].
        rewrite !Z.eqb_refl in Ens. discriminate.
      * apply Hseed. lia.
    + rewrite walk_first, En.
      destruct Hend as [Hstuck|[Hclosed|Hbudget]]; [now left|right; now left|].
      right. right. lia.
Qed.

(** Every traced point is a solid grid point of the image. *)
Lemma traceFrom_solid img s sx sy : 0 < s -> forall m cx cy dir,
  sampled img s cx cy -> getVal img cx cy = 1 ->
  Forall (fun p => sampled img s (px p) (py p) /\ getVal img (px p) (py p) = 1)
         (traceFrom img s sx sy m cx cy dir).
Proof.
  intros Hs. induction m as [|m IH]; intros cx cy dir Hsam Hsol; cbn [traceFrom].
  - constructor.
  - constructor; [now split|].
    destruct (nextStep img s cx cy dir) as [[[nx ny] d]|] eqn:En; [|constructor].
    destruct (_ && _); [|constructor].
    apply tryDirs_Some in En as (b & a & _ & _ & Hc & Hsolid).
    apply isSolid_true in Hsolid.
    apply IH; [|exact Hsolid].
    pose proof (getVal_solid_inside _ _ _ Hsolid) as [Hnx Hny].
    destruct Hsam as (i & j & Hi & Hj & Hx & Hy & Hxw & Hyh).
    destruct (candidate_cases s d cx cy) as [E|[E|[E|[E|E]]]];
      rewrite E in Hc; injection Hc as <- <-.
    + exists i, j. repeat split; lia.
    + exists (i + 1), j. repeat split; nia.
    + exists i, (j + 1). repeat split; nia.
    + exists (i - 1), j. repeat split; nia.
    + exists i, (j - 1). repeat split; nia.
Qed.

Lemma keepFrom_subset l : forall q p, In p (keepFrom q l) -> In p l.
Proof.
  induction l as [|a l IH]; intros q p; simpl; [auto|].
  destruct (far q a); simpl.
  - intros [->|Hin]; [now left | right; eauto].
  - intros Hin. right. eauto.
Qed.

Lemma simplify_subset P p : In p (simplify P) -> In p P.
Proof.
  destruct P as [|p0 rest]; [auto|]. rewrite simplify_cons. simpl.
  intros [->|Hin]; [now left|right]. eapply keepFrom_subset; eauto.
Qed.

Lemma map_point_id (l : list point) : map (fun p => Point (px p) (py p)) l = l.
Proof. induction l as [|[x y] l IH]; simpl; [reflexivity | now rewrite IH]. Qed.

(** ** The extractor as a whole *)

Lemma maxIter_pos : (0 < maxIter)%nat.
Proof. apply Nat.ltb_lt. vm_compute. reflexivity. Qed.

Lemma maxIter_Z : Z.of_nat maxIter = 5000.
Proof. vm_compute. reflexivity. Qed.

Lemma pred_maxIter_Z : Z.of_nat (Nat.pred maxIter) = 4999.
Proof. vm_compute. reflexivity. Qed.

Lemma maxIter_S : S (Nat.pred maxIter) = maxIter.
Proof. vm_compute. reflexivity. Qed.

Global Opaque maxIter.

Lemma Returns_Some_inj {A : Type} (a b : A) :
  Returns (Some a) = Returns (Some b) -> a = b.
Proof. now intros [= ->]. Qed.

Lemma traceFrom_head img s sx sy n cx cy dir :
  (0 < n)%nat ->
  traceFrom img s sx sy n cx cy dir =
  Point cx cy :: tail (traceFrom img s sx sy n cx cy dir).
Proof. destruct n; [lia | reflexivity]. Qed.

Lemma extract_from_seed img s p :
  findSeed img s = Returns (Some p) -> getVal img (px p) (py p) = 1 ->
  getVerticesFromImage img s =
  Returns (Some (simplify (traceFrom img s (px p) (py p) maxIter (px p) (py p) 0))).
Proof.
  intros Hseed Hsolid. unfold getVerticesFromImage. rewrite Hseed.
  apply getVal_solid_inside in Hsolid as [Hx _].
  destruct (px p =? -1) eqn:E; [lia|].
  now rewrite map_point_id.
Qed.

Lemma extract_no_seed img s :
  findSeed img s = Returns None -> getVerticesFromImage img s = Returns None.
Proof. intros Hseed. unfold getVerticesFromImage. now rewrite Hseed. Qed.

(** With a positive sampling step the extractor returns. *)
Lemma extract_returns img s :
  0 < s -> exists r, getVerticesFromImage img s = Returns r.
Proof.
  intros Hs. destruct (findSeed_returns img s Hs) as [[p|] Hr].
  - pose proof (findSeed_Some _ _ _ Hs Hr) as (_ & Hsolid & _).
    rewrite (extract_from_seed _ _ _ Hr Hsolid). eauto.
  - rewrite (extract_no_seed _ _ Hr). eauto.
Qed.

Lemma checkRect_sound img x0 y0 x1 y1 :
  checkRect img x0 y0 x1 y1 = true -> rectRegion img x0 y0 x1 y1.
Proof.
  unfold checkRect. rewrite !andb_true_iff, !Z.leb_le, forallb_forall.
  intros [[[[Hx0 Hx1] Hy0] Hy1] Hall] x y.
  destruct (decide (inside img x y)) as [Hin|Hout].
  - destruct Hin as [Hx Hy].
    assert (Hyin : In y (seqZ 0 (height img))).
    { apply list_elem_of_In, elem_of_seqZ. lia. }
    specialize (Hall y Hyin). rewrite forallb_forall in Hall.
    assert (Hxin : In x (seqZ 0 (width img))).
    { apply list_elem_of_In, elem_of_seqZ. lia. }
    specialize (Hall x Hxin). apply eqb_prop in Hall.
    rewrite <- Z.eqb_eq, Hall, !andb_true_iff, !Z.leb_le, !Z.ltb_lt. lia.
  - rewrite (getVal_outside _ _ _ Hout). unfold inside in Hout. lia.
Qed.

(** C3: when no sampled coordinate is solid, the extractor returns [null],
    a value and not a failure. *)
Theorem transparent_no_contour img s :
  0 < s ->
  (forall x y, sampled img s x y -> getVal img x y = 0) ->
  getVerticesFromImage img s = Returns None.
Proof.
  intros Hs Hempty. apply extract_no_seed.
  destruct (findSeed_returns img s Hs) as [[p|] Hr]; [|exact Hr].
  destruct (findSeed_Some _ _ _ Hs Hr) as (Hsam & Hsolid & _).
  specialize (Hempty _ _ Hsam). congruence.
Qed.

Lemma transparent_no_contour_witness :
  getVerticesFromImage (raster 8 8 (fun _ _ => false)) 4 = Returns None.
Proof.
  apply transparent_no_contour; [lia|].
  intros x y _.
  assert (Hrect : rectRegion (raster 8 8 (fun _ _ => false)) 0 0 0 0).
  { apply checkRect_sound. vm_compute. reflexivity. }
  destruct (getVal_01 (raster 8 8 (fun _ _ => false)) x y) as [Hz|Ho]; [exact Hz|].
  apply Hrect in Ho. lia.
Defined.

(** A seed exists exactly when the result is not [null]. *)
Lemma contour_iff_seed img s :
  0 < s ->
  (exists pts, getVerticesFromImage img s = Returns (Some pts)) <->
  (exists x y, sampled img s x y /\ getVal img x y = 1).
Proof.
  intros Hs. split.
  - intros [pts Hres]. destruct (findSeed_returns img s Hs) as [[p|] Hr].
    + destruct (findSeed_Some _ _ _ Hs Hr) as (Hsam & Hsolid & _). eauto.
    + rewrite (extract_no_seed _ _ Hr) in Hres. discriminate.
  - intros (x & y & Hsam & Hsolid).
    destruct (findSeed_returns img s Hs) as [[p|] Hr].
    + destruct (findSeed_Some _ _ _ Hs Hr) as (_ & Hsol & _).
      rewrite (extract_from_seed _ _ _ Hr Hsol). eauto.
    + pose proof (findSeed_None _ _ Hs Hr _ _ Hsam). congruence.
Qed.

(** C5: the trace loop runs between 1 and 5000 iterations; its path starts
    at the seed and lists the positions the tracer moves through; it ends
    where no neighbour is solid, where the next position is the seed, or
    with the budget; the path, complete or not, is simplified and returned. *)
Theorem trace_terminates img s sx sy :
  0 < s ->
  findSeed img s = Returns (Some (Point sx sy)) ->
  let path := traceFrom img s sx sy maxIter sx sy 0 in
  1 <= Z.of_nat (length path) <= 5000 /\
  head path = Some (Point sx sy) /\
  (forall i, (i < length path)%nat ->
     exists x y d, walk img s i (sx, sy, 0) = Some (x, y, d) /\
                   path !! i = Some (Point x y)) /\
  (forall i, (0 < i < length path)%nat -> path !! i <> Some (Point sx sy)) /\
  (walk img s (length path) (sx, sy, 0) = None \/
   (exists d, walk img s (length path) (sx, sy, 0) = Some (sx, sy, d)) \/
   Z.of_nat (length path) = 5000) /\
  getVerticesFromImage img s = Returns (Some (simplify path)).
Proof.
  intros Hs Hseed path.
  pose proof (traceFrom_shape img s sx sy (Nat.pred maxIter) sx sy 0) as Hshape.
  cbv zeta in Hshape.
  rewrite maxIter_S in Hshape. fold path in Hshape.
  destruct Hshape as (Hlen & Hhead & Hwalk & Hnoseed & Hend).
  pose proof maxIter_Z as HZ.
  split; [lia|].
  repeat (split; [assumption|]).
  split.
  - destruct Hend as [Hstuck|[Hclosed|Hbudget]]; [now left|right; now left|].
    right. right. lia.
  - pose proof (findSeed_Some _ _ _ Hs Hseed) as (_ & Hsolid & _).
    apply (extract_from_seed _ _ _ Hseed Hsolid).
Qed.

Lemma trace_terminates_witness :
  let path := traceFrom (opaqueSquare 8) 4 0 0 maxIter 0 0 0 in
  1 <= Z.of_nat (length path) <= 5000 /\
  getVerticesFromImage (opaqueSquare 8) 4 = Returns (Some (simplify path)).
Proof.
  intros path.
  destruct (trace_terminates (opaqueSquare 8) 4 0 0) as (Hlen & _ & _ & _ & _ & Hres).
  - lia.
  - vm_compute. reflexivity.
  - split; [exact Hlen | exact Hres].
Defined.

(** C10: a non-null result is a non-empty sequence that starts with the
    first solid grid point of the row-major scan, and each of its points is
    a solid grid point: both coordinates are non-negative multiples of the
    sampling step and lie inside the image. *)
Theorem contour_points_on_grid img s pts :
  0 < s ->
  getVerticesFromImage img s = Returns (Some pts) ->
  exists sx sy rest,
    findSeed img s = Returns (Some (Point sx sy)) /\
    firstSolidSample img s sx sy /\
    pts = Point sx sy :: rest /\
    Forall (fun p =>
              (exists i j, 0 <= i /\ 0 <= j /\ px p = i * s /\ py p = j * s) /\
              inside img (px p) (py p) /\
              getVal img (px p) (py p) = 1) pts.
Proof.
  intros Hs Hres.
  destruct (findSeed_returns img s Hs) as [[[sx sy]|] Hr].
  2:{ rewrite (extract_no_seed _ _ Hr) in Hres. discriminate. }
  pose proof (findSeed_Some _ _ _ Hs Hr) as Hfirst. cbn [px py] in Hfirst.
  destruct Hfirst as (Hsam & Hsolid & Hbefore).
  rewrite (extract_from_seed _ _ _ Hr Hsolid) in Hres. cbn [px py] in Hres.
  apply Returns_Some_inj in Hres. subst pts.
  pose proof (traceFrom_head img s sx sy maxIter sx sy 0 maxIter_pos) as Hcons.
  set (path := traceFrom img s sx sy maxIter sx sy 0) in *.
  exists sx, sy.
  exists (keepFrom (Point sx sy) (tail path)).
  split; [exact Hr|]. split; [now repeat split|].
  split.
  { rewrite Hcons at 1. now rewrite simplify_cons. }
  apply Forall_forall. intros p Hp. apply list_elem_of_In, simplify_subset in Hp.
  pose proof (traceFrom_solid img s sx sy Hs maxIter sx sy 0 Hsam Hsolid) as Hall.
  fold path in Hall. rewrite Forall_forall in Hall.
  apply list_elem_of_In in Hp.
  destruct (Hall p Hp) as [(i & j & Hi & Hj & Hx & Hy & Hxw & Hyh) Hsol].
  split; [exists i, j; repeat split; assumption|].
  split; [|exact Hsol]. now apply getVal_solid_inside.
Qed.

Lemma contour_points_on_grid_witness :
  exists sx sy rest,
    findSeed (opaqueSquare 20) 4 = Returns (Some (Point sx sy)) /\
    firstSolidSample (opaqueSquare 20) 4 sx sy /\
    [Point 0 0; Point 16 0; Point 16 16; Point 0 16] = Point sx sy :: rest /\
    Forall (fun p =>
              (exists i j, 0 <= i /\ 0 <= j /\ px p = i * 4 /\ py p = j * 4) /\
              inside (opaqueSquare 20) (px p) (py p) /\
              getVal (opaqueSquare 20) (px p) (py p) = 1)
           [Point 0 0; Point 16 0; Point 16 16; Point 0 16].
Proof.
  apply (contour_points_on_grid (opaqueSquare 20) 4); [lia|].
  vm_compute. reflexivity.
Defined.


(** ** Tracing a filled rectangle *)

Lemma nextStep_straight img s cx cy hd :
  getVal img (cx + s * fst (delta (turnLeft hd))) (cy + s * snd (delta (turnLeft hd))) = 0 ->
  getVal img (cx + s * fst (delta hd)) (cy + s * snd (delta hd)) = 1 ->
  nextStep img s cx cy (code hd) =
  Some (cx + s * fst (delta hd), cy + s * snd (delta hd), code hd).
Proof.
  intros Hleft Hstraight. unfold nextStep. rewrite checkDirs_code.
  unfold leftFirstDirs. cbn [tryDirs]. rewrite !candidate_code.
  apply isSolid_false in Hleft. apply isSolid_true in Hstraight.
  now rewrite Hleft, Hstraight.
Qed.

Lemma nextStep_right img s cx cy hd :
  getVal img (cx + s * fst (delta (turnLeft hd))) (cy + s * snd (delta (turnLeft hd))) = 0 ->
  getVal img (cx + s * fst (delta hd)) (cy + s * snd (delta hd)) = 0 ->
  getVal img (cx + s * fst (delta (turnRight hd))) (cy + s * snd (delta (turnRight hd))) = 1 ->
  nextStep img s cx cy (code hd) =
  Some (cx + s * fst (delta (turnRight hd)), cy + s * snd (delta (turnRight hd)),
        code (turnRight hd)).
Proof.
  intros Hleft Hstraight Hright. unfold nextStep. rewrite checkDirs_code.
  unfold leftFirstDirs. cbn [tryDirs]. rewrite !candidate_code.
  apply isSolid_false in Hleft. apply isSolid_false in Hstraight.
  apply isSolid_true in Hright.
  now rewrite Hleft, Hstraight, Hright.
Qed.

Lemma notSeed_true (nx ny sx sy : Z) :
  nx <> sx \/ ny <> sy -> negb (nx =? sx) || negb (ny =? sy) = true.
Proof.
  intros [Hx|Hy]; apply orb_true_iff; [left|right];
    apply negb_true_iff, Z.eqb_neq; assumption.
Qed.

(** A straight run: [k] moves ahead along a wall on the left. *)
Lemma trace_run img s sx sy hd : forall (k m : nat) cx cy,
  (forall i, 0 <= i < Z.of_nat k ->
     let x := cx + i * (s * fst (delta hd)) in
     let y := cy + i * (s * snd (delta hd)) in
     getVal img (x + s * fst (delta (turnLeft hd))) (y + s * snd (delta (turnLeft hd))) = 0 /\
     getVal img (x + s * fst (delta hd)) (y + s * snd (delta hd)) = 1 /\
     (x + s * fst (delta hd) <> sx \/ y + s * snd (delta hd) <> sy)) ->
  (k <= m)%nat ->
  traceFrom img s sx sy (S m) cx cy (code hd) =
  line k cx cy (s * fst (delta hd)) (s * snd (delta hd)) ++
  traceFrom img s sx sy (S (m - k))
            (cx + Z.of_nat k * (s * fst (delta hd)))
            (cy + Z.of_nat k * (s * snd (delta hd))) (code hd).
Proof.
  induction k as [|k IH]; intros m cx cy Hrun Hkm.
  - cbn [line app]. rewrite Nat.sub_0_r. f_equal; lia.
  - destruct m as [|m]; [lia|].
    rewrite traceFrom_S.
    destruct (Hrun 0 ltac:(lia)) as (Hleft & Hstraight & Hseed).
    cbv zeta in Hleft, Hstraight, Hseed.
    rewrite Z.mul_0_l, !Z.add_0_r in Hleft, Hstraight, Hseed.
    rewrite (nextStep_straight _ _ _ _ _ Hleft Hstraight).
    rewrite (notSeed_true _ _ _ _ Hseed).
    replace (0 <? Z.of_nat (S m)) with true by (symmetry; apply Z.ltb_lt; lia).
    cbn [andb line app]. f_equal.
    rewrite (IH m); [|intros i Hi|lia].
    + f_equal. replace (S m - S k)%nat with (m - k)%nat by lia.
      f_equal; lia.
    + specialize (Hrun (i + 1) ltac:(lia)). cbv zeta in Hrun |- *.
      replace (cx + s * (delta hd).1 + i * (s * (delta hd).1))
        with (cx + (i + 1) * (s * (delta hd).1)) by lia.
      replace (cy + s * (delta hd).2 + i * (s * (delta hd).2))
        with (cy + (i + 1) * (s * (delta hd).2)) by lia.
      exact Hrun.
Qed.

(** A corner: neither left nor ahead is solid, the right neighbour is. *)
Lemma trace_turn img s sx sy hd m cx cy :
  getVal img (cx + s * fst (delta (turnLeft hd))) (cy + s * snd (delta (turnLeft hd))) = 0 ->
  getVal img (cx + s * fst (delta hd)) (cy + s * snd (delta hd)) = 0 ->
  getVal img (cx + s * fst (delta (turnRight hd))) (cy + s * snd (delta (turnRight hd))) = 1 ->
  (cx + s * fst (delta (turnRight hd)) <> sx \/
   cy + s * snd (delta (turnRight hd)) <> sy) ->
  traceFrom img s sx sy (S (S m)) cx cy (code hd) =
  Point cx cy ::
  traceFrom img s sx sy (S m)
            (cx + s * fst (delta (turnRight hd)))
            (cy + s * snd (delta (turnRight hd))) (code (turnRight hd)).
Proof.
  intros Hleft Hstraight Hright Hseed.
  rewrite traceFrom_S, (nextStep_right _ _ _ _ _ Hleft Hstraight Hright).
  rewrite (notSeed_true _ _ _ _ Hseed).
  replace (0 <? Z.of_nat (S m)) with true by (symmetry; apply Z.ltb_lt; lia).
  reflexivity.
Qed.

Lemma line_In k : forall x y dx dy p,
  In p (line k x y dx dy) ->
  exists i, 0 <= i < Z.of_nat k /\ p = Point (x + i * dx) (y + i * dy).
Proof.
  induction k as [|k IH]; intros x y dx dy p; cbn [line]; [intros []|].
  intros [<-|Hin].
  - exists 0. split; [lia|]. f_equal; lia.
  - destruct (IH _ _ _ _ _ Hin) as (i & Hi & ->).
    exists (i + 1). split; [lia|]. f_equal; lia.
Qed.

Lemma line_length k x y dx dy : length (line k x y dx dy) = k.
Proof. revert x y. induction k as [|k IH]; intros x y; simpl; [|rewrite IH]; reflexivity. Qed.

(** ** Images built by [raster] *)

Lemma flat_map_lookup4 (f : nat -> list Z) (l : list nat) : forall i k,
  (forall j, length (f j) = 4%nat) -> (k < 4)%nat ->
  flat_map f l !! (4 * i + k)%nat =
  match l !! i with Some j => f j !! k | None => None end.
Proof.
  induction l as [|a l IH]; intros i k Hlen Hk; cbn [flat_map].
  - now rewrite !lookup_nil.
  - destruct i as [|i].
    + rewrite lookup_app_l by (rewrite Hlen; lia). reflexivity.
    + rewrite lookup_app_r by (rewrite Hlen; lia). rewrite Hlen.
      replace (4 * S i + k - 4)%nat with (4 * i + k)%nat by lia.
      now rewrite IH.
Qed.

Lemma getVal_raster w h opaque x y :
  0 <= x < w -> 0 <= y < h ->
  getVal (raster w h opaque) x y = if opaque x y then 1 else 0.
Proof.
  intros Hx Hy. unfold getVal, raster. cbn [width height data].
  destruct (x <? 0) eqn:E1; [lia|]. destruct (y <? 0) eqn:E2; [lia|].
  destruct (x >=? w) eqn:E3; [lia|]. destruct (y >=? h) eqn:E4; [lia|].
  cbn [orb].
  replace (Z.to_nat ((y * w + x) * 4 + 3))
    with (4 * Z.to_nat (y * w + x) + 3)%nat by nia.
  rewrite flat_map_lookup4 by (reflexivity || lia).
  rewrite lookup_seq_lt by nia. cbn [Nat.add].
  rewrite Z2Nat.id by nia.
  replace ((y * w + x) mod w) with x
    by (rewrite Z.add_comm, Z.mod_add by lia; symmetry; apply Z.mod_small; lia).
  replace ((y * w + x) / w) with y
    by (rewrite Z.add_comm, Z.div_add by lia; rewrite Z.div_small by lia; lia).
  cbn. destruct (opaque x y); reflexivity.
Qed.

(** A single row of 5001 opaque pixels sampled at every pixel: the budget
    runs out at the 5000th point, whose right neighbour is solid and is not
    the seed, and the partial path is simplified and returned. *)
Example budget_exhausted_path_returned :
  let im := raster 5001 1 (fun _ _ => true) in
  let path := traceFrom im 1 0 0 maxIter 0 0 0 in
  path = line (Z.to_nat 4999) 0 0 1 0 ++ [Point 4999 0] /\
  Z.of_nat (length path) = 5000 /\
  nextStep im 1 4999 0 0 = Some (5000, 0, 0) /\
  getVerticesFromImage im 1 = Returns (Some (simplify path)).
Proof.
  intros im path.
  assert (Hsolid : forall x, 0 <= x < 5001 -> getVal im x 0 = 1).
  { intros x Hx. unfold im. now rewrite getVal_raster by lia. }
  assert (Hup : forall x, getVal im x (-1) = 0).
  { intros x. apply getVal_outside. unfold inside. cbn. lia. }
  assert (Hpath : path = line (Z.to_nat 4999) 0 0 1 0 ++ [Point 4999 0]).
  { unfold path. rewrite <- maxIter_S.
    change 0 with (code Right) at 5.
    rewrite (trace_run im 1 0 0 Right (Z.to_nat 4999) (Nat.pred maxIter)).
    - cbn [delta fst snd]. rewrite Z2Nat.id by lia.
      replace (Nat.pred maxIter - Z.to_nat 4999)%nat with 0%nat
        by (pose proof pred_maxIter_Z; lia).
      rewrite traceFrom_1. reflexivity.
    - intros i Hi. cbn [delta fst snd turnLeft]. rewrite Z2Nat.id in Hi by lia.
      repeat split.
      + replace (0 + i * (1 * 0) + 1 * -1) with (-1) by lia. apply Hup.
      + replace (0 + i * (1 * 0) + 1 * 0) with 0 by lia. apply Hsolid. lia.
      + left. lia.
    - pose proof pred_maxIter_Z. lia. }
  split; [exact Hpath|]. split; [|split].
  - rewrite Hpath, length_app, line_length. cbn [length]. lia.
  - change (nextStep im 1 4999 0 0) with (nextStep im 1 4999 0 (code Right)).
    rewrite (nextStep_straight im 1 4999 0 Right); cbn [delta fst snd turnLeft].
    + reflexivity.
    + apply Hup.
    + apply Hsolid. lia.
  - fold path.
    assert (Hfirst : firstSolidSample im 1 0 0).
    { split; [|split].
      - exists 0, 0. cbn. lia.
      - apply Hsolid. lia.
      - intros x y (i & j & Hi & Hj & -> & -> & _) Hbefore.
        unfold scannedBefore in Hbefore. lia. }
    pose proof (findSeed_first im 1 0 0 ltac:(lia) Hfirst) as Hseed.
    apply (extract_from_seed im 1 (Point 0 0) Hseed). cbn [px py].
    apply Hsolid. lia.
Qed.

Lemma far_dx p q : 15 < Z.abs (px p - px q) -> far p q = true.
Proof.
  intros Hd. unfold far. apply Z.ltb_lt.
  set (u := px p - px q) in *. set (v := py p - py q).
  pose proof (Z.square_nonneg v). assert (16 * 16 <= u * u) by nia. lia.
Qed.

Lemma far_dy p q : 15 < Z.abs (py p - py q) -> far p q = true.
Proof.
  intros Hd. unfold far. apply Z.ltb_lt.
  set (u := px p - px q). set (v := py p - py q) in *.
  pose proof (Z.square_nonneg u). assert (16 * 16 <= v * v) by nia. lia.
Qed.

Lemma keepFrom_nonempty l : forall q,
  (exists p, In p l /\ far q p = true) -> keepFrom q l <> [].
Proof.
  induction l as [|a l IH]; intros q (p & Hin & Hfar); [destruct Hin|].
  cbn [keepFrom]. destruct (far q a) eqn:Ea; [discriminate|].
  apply IH. destruct Hin as [->|Hin]; [congruence|]. eauto.
Qed.

Lemma last_In (l : list point) q : last l = Some q -> In q l.
Proof.
  intros Hlast. apply list_elem_of_In.
  apply last_Some in Hlast as [l' ->]. apply list_elem_of_In, in_app_iff.
  right. now left.
Qed.

Lemma keepFrom_app_last l1 l2 q :
  keepFrom q (l1 ++ l2) = keepFrom q l1 ++ keepFrom (lastKept q l1) l2.
Proof. apply keepFrom_app. Qed.

Lemma lastKept_In q l : keepFrom q l <> [] -> In (lastKept q l) (keepFrom q l).
Proof.
  intros Hne. unfold lastKept.
  destruct (last (keepFrom q l)) as [r|] eqn:E.
  - now apply last_In.
  - apply last_None in E. contradiction.
Qed.

(** ** Bounding box *)

Lemma bbox_fold l : forall a b c d a' b' c' d',
  fold_left (fun '(a, b, c, d) q =>
               (Z.min a (px q), Z.min b (py q), Z.max c (px q), Z.max d (py q)))
            l (a, b, c, d) = (a', b', c', d') ->
  (a' <= a /\ b' <= b /\ c <= c' /\ d <= d') /\
  (forall q, In q l -> a' <= px q <= c' /\ b' <= py q <= d') /\
  (a' = a \/ exists q, In q l /\ px q = a') /\
  (b' = b \/ exists q, In q l /\ py q = b') /\
  (c' = c \/ exists q, In q l /\ px q = c') /\
  (d' = d \/ exists q, In q l /\ py q = d').
Proof.
  induction l as [|p l IH]; intros a b c d a' b' c' d' Hfold.
  - simpl in Hfold. injection Hfold as <- <- <- <-.
    split; [lia|]. split; [intros q []|]. repeat split; now left.
  - cbn [fold_left] in Hfold. apply IH in Hfold.
    destruct Hfold as (Hle & Hall & Ha & Hb & Hc & Hd).
    split; [lia|]. split.
    { intros q [<-|Hin]; [lia | now apply Hall]. }
    assert (Hstep : forall (f : point -> Z) (v v0 m : Z),
              (m = Z.min v0 (f p) \/ m = Z.max v0 (f p)) ->
              (v = m \/ exists q, In q l /\ f q = v) ->
              v = v0 \/ exists q, In q (p :: l) /\ f q = v).
    { intros f v v0 m Hm [->|(q & Hin & Hq)].
      - destruct Hm as [->| ->].
        + destruct (Z.min_spec v0 (f p)) as [[_ ->]|[_ ->]];
            [now left | right; exists p; split; [now left | reflexivity]].
        + destruct (Z.max_spec v0 (f p)) as [[_ ->]|[_ ->]];
            [right; exists p; split; [now left | reflexivity] | now left].
      - right. exists q. split; [now right | exact Hq]. }
    repeat split.
    + eapply (Hstep px); [left; reflexivity | exact Ha].
    + eapply (Hstep py); [left; reflexivity | exact Hb].
    + eapply (Hstep px); [right; reflexivity | exact Hc].
    + eapply (Hstep py); [right; reflexivity | exact Hd].
Qed.

(** The box of a list that lies in [xlo..xhi] x [ylo..yhi] and touches the
    four sides. *)
Lemma boundingBox_tight pts xlo ylo xhi yhi :
  (forall q, In q pts -> xlo <= px q <= xhi /\ ylo <= py q <= yhi) ->
  (exists q, In q pts /\ px q = xlo) ->
  (exists q, In q pts /\ py q = ylo) ->
  (exists q, In q pts /\ px q = xhi) ->
  (exists q, In q pts /\ py q = yhi) ->
  boundingBox pts = Some (xlo, ylo, xhi, yhi).
Proof.
  intros Hall (qa & Hqa & Ha) (qb & Hqb & Hb) (qc & Hqc & Hc) (qd & Hqd & Hd).
  destruct pts as [|p rest]; [destruct Hqa|].
  cbn [boundingBox].
  destruct (fold_left _ rest (px p, py p, px p, py p)) as [[[a' b'] c'] d'] eqn:E.
  apply bbox_fold in E. destruct E as (Hle & Hin & Ha' & Hb' & Hc' & Hd').
  assert (Hbox : forall q, In q (p :: rest) -> a' <= px q <= c' /\ b' <= py q <= d').
  { intros q [<-|Hq]; [lia | now apply Hin]. }
  assert (Hp : In p (p :: rest)) by now left.
  assert (Ea : a' = xlo).
  { pose proof (Hbox _ Hqa). destruct Ha' as [->|(q & Hq & <-)].
    - pose proof (Hall _ Hp). lia.
    - pose proof (Hall q (or_intror Hq)). lia. }
  assert (Eb : b' = ylo).
  { pose proof (Hbox _ Hqb). destruct Hb' as [->|(q & Hq & <-)].
    - pose proof (Hall _ Hp). lia.
    - pose proof (Hall q (or_intror Hq)). lia. }
  assert (Ec : c' = xhi).
  { pose proof (Hbox _ Hqc). destruct Hc' as [->|(q & Hq & <-)].
    - pose proof (Hall _ Hp). lia.
    - pose proof (Hall q (or_intror Hq)). lia. }
  assert (Ed : d' = yhi).
  { pose proof (Hbox _ Hqd). destruct Hd' as [->|(q & Hq & <-)].
    - pose proof (Hall _ Hp). lia.
    - pose proof (Hall q (or_intror Hq)). lia. }
  now subst.
Qed.

(** ** The trace of a filled rectangle of grid points

    The solid grid points are [(s * i, s * j)] for [a <= i <= b] and
    [c <= j <= d]: the tracer walks the top row, the right column and the
    bottom row. *)
Section RectangleTrace.

Variable img : image.
Variables s a b c d : Z.
Hypothesis Hs : 0 < s.
Hypothesis Hab : a < b.
Hypothesis Hcd : c < d.
Hypothesis Hgrid : forall i j,
  getVal img (s * i) (s * j) = 1 <-> (a <= i <= b /\ c <= j <= d).

Lemma solidAt x y i j :
  x = s * i -> y = s * j -> a <= i <= b -> c <= j <= d -> getVal img x y = 1.
Proof. intros -> -> Hi Hj. now apply Hgrid. Qed.

Lemma emptyAt x y i j :
  x = s * i -> y = s * j -> ~ (a <= i <= b /\ c <= j <= d) -> getVal img x y = 0.
Proof. intros -> -> Hout. apply getVal_not1. now rewrite Hgrid. Qed.

Lemma rect_top (M : nat) :
  (Z.to_nat (b - a) <= M)%nat ->
  traceFrom img s (s * a) (s * c) (S M) (s * a) (s * c) (code Right) =
  line (Z.to_nat (b - a)) (s * a) (s * c) s 0 ++
  traceFrom img s (s * a) (s * c) (S (M - Z.to_nat (b - a))) (s * b) (s * c) (code Right).
Proof.
  intros HM. rewrite (trace_run img s _ _ Right (Z.to_nat (b - a)) M); [|intros i Hi|exact HM].
  - cbn [delta fst snd]. rewrite !Z2Nat.id by lia.
    f_equal; [f_equal; lia|]. f_equal; lia.
  - cbn [delta fst snd turnLeft]. repeat split.
    + apply (emptyAt _ _ (a + i) (c - 1)); lia.
    + apply (solidAt _ _ (a + i + 1) c); lia.
    + left. nia.
Qed.

Lemma rect_corner1 (M : nat) :
  traceFrom img s (s * a) (s * c) (S (S M)) (s * b) (s * c) (code Right) =
  Point (s * b) (s * c) ::
  traceFrom img s (s * a) (s * c) (S M) (s * b) (s * (c + 1)) (code Down).
Proof.
  rewrite (trace_turn img s _ _ Right M); cbn [delta fst snd turnLeft turnRight].
  - f_equal. f_equal; lia.
  - apply (emptyAt _ _ b (c - 1)); lia.
  - apply (emptyAt _ _ (b + 1) c); lia.
  - apply (solidAt _ _ b (c + 1)); lia.
  - left. nia.
Qed.

Lemma rect_right (M : nat) :
  (Z.to_nat (d - c - 1) <= M)%nat ->
  traceFrom img s (s * a) (s * c) (S M) (s * b) (s * (c + 1)) (code Down) =
  line (Z.to_nat (d - c - 1)) (s * b) (s * (c + 1)) 0 s ++
  traceFrom img s (s * a) (s * c) (S (M - Z.to_nat (d - c - 1))) (s * b) (s * d) (code Down).
Proof.
  intros HM.
  rewrite (trace_run img s _ _ Down (Z.to_nat (d - c - 1)) M); [|intros i Hi|exact HM].
  - cbn [delta fst snd]. rewrite !Z2Nat.id by lia.
    f_equal; [f_equal; lia|]. f_equal; lia.
  - cbn [delta fst snd turnLeft]. repeat split.
    + apply (emptyAt _ _ (b + 1) (c + 1 + i)); lia.
    + apply (solidAt _ _ b (c + 1 + i + 1)); lia.
    + left. nia.
Qed.

Lemma rect_corner2 (M : nat) :
  traceFrom img s (s * a) (s * c) (S (S M)) (s * b) (s * d) (code Down) =
  Point (s * b) (s * d) ::
  traceFrom img s (s * a) (s * c) (S M) (s * (b - 1)) (s * d) (code Left).
Proof.
  rewrite (trace_turn img s _ _ Down M); cbn [delta fst snd turnLeft turnRight].
  - f_equal. f_equal; lia.
  - apply (emptyAt _ _ (b + 1) d); lia.
  - apply (emptyAt _ _ b (d + 1)); lia.
  - apply (solidAt _ _ (b - 1) d); lia.
  - right. nia.
Qed.

Lemma rect_bottom (M : nat) :
  (Z.to_nat (b - a - 1) <= M)%nat ->
  traceFrom img s (s * a) (s * c) (S M) (s * (b - 1)) (s * d) (code Left) =
  line (Z.to_nat (b - a - 1)) (s * (b - 1)) (s * d) (- s) 0 ++
  traceFrom img s (s * a) (s * c) (S (M - Z.to_nat (b - a - 1))) (s * a) (s * d) (code Left).
Proof.
  intros HM.
  rewrite (trace_run img s _ _ Left (Z.to_nat (b - a - 1)) M); [|intros i Hi|exact HM].
  - cbn [delta fst snd]. rewrite !Z2Nat.id by lia.
    f_equal; [f_equal; lia|]. f_equal; lia.
  - cbn [delta fst snd turnLeft]. repeat split.
    + apply (emptyAt _ _ (b - 1 - i) (d + 1)); lia.
    + apply (solidAt _ _ (b - 1 - i - 1) d); lia.
    + right. nia.
Qed.

Lemma rect_path (M : nat) :
  2 * (b - a) + (d - c) <= Z.of_nat M ->
  exists rest,
    traceFrom img s (s * a) (s * c) (S M) (s * a) (s * c) 0 =
    ((topSide s a b c ++ rightSide s b c d) ++ bottomSide s a b d) ++ rest.
Proof.
  intros HM.
  change (traceFrom img s (s * a) (s * c) (S M) (s * a) (s * c) 0)
    with (traceFrom img s (s * a) (s * c) (S M) (s * a) (s * c) (code Right)).
  set (k1 := Z.to_nat (b - a)). set (k2 := Z.to_nat (d - c - 1)).
  set (k3 := Z.to_nat (b - a - 1)).
  rewrite rect_top by lia. fold k1.
  replace (S (M - k1)) with (S (S (M - k1 - 1))) by lia.
  rewrite rect_corner1, rect_right by lia. fold k2.
  replace (S (M - k1 - 1 - k2)) with (S (S (M - k1 - 1 - k2 - 1))) by lia.
  rewrite rect_corner2, rect_bottom by lia. fold k3.
  rewrite traceFrom_S.
  eexists. unfold topSide, rightSide, bottomSide. fold k1 k2 k3.
  rewrite <- !app_assoc. cbn [app]. reflexivity.
Qed.

Lemma topSide_In p : In p (topSide s a b c) -> py p = s * c /\ s * a <= px p <= s * b.
Proof.
  unfold topSide. rewrite in_app_iff. intros [Hin|[<-|[]]].
  - apply line_In in Hin as (i & Hi & ->). cbn [px py]. nia.
  - cbn [px py]. nia.
Qed.

Lemma rightSide_In p : In p (rightSide s b c d) -> px p = s * b /\ s * c < py p <= s * d.
Proof.
  unfold rightSide. rewrite in_app_iff. intros [Hin|[<-|[]]].
  - apply line_In in Hin as (i & Hi & ->). cbn [px py]. nia.
  - cbn [px py]. nia.
Qed.

Lemma bottomSide_In p : In p (bottomSide s a b d) -> py p = s * d /\ s * a <= px p < s * b.
Proof.
  unfold bottomSide. rewrite in_app_iff. intros [Hin|[<-|[]]].
  - apply line_In in Hin as (i & Hi & ->). cbn [px py]. nia.
  - cbn [px py]. nia.
Qed.

Lemma topSide_cons :
  exists top', topSide s a b c = Point (s * a) (s * c) :: top'.
Proof.
  unfold topSide. destruct (Z.to_nat (b - a)) as [|k] eqn:E; [lia|].
  cbn [line app]. eauto.
Qed.

Hypothesis Hwide : 15 < s * (b - a).
Hypothesis Htall : 15 < s * (d - c).

(** What the distance filter keeps of a path around the three sides: the
    seed, then at least one point of the right column and at least one of
    the bottom row. *)
Lemma rect_simplify rest :
  exists keptTop keptRight keptBottom keptRest,
    simplify (((topSide s a b c ++ rightSide s b c d) ++ bottomSide s a b d) ++ rest) =
    Point (s * a) (s * c) :: keptTop ++ keptRight ++ keptBottom ++ keptRest /\
    keptRight <> [] /\ keptBottom <> [] /\
    (forall p, In p keptRight -> In p (rightSide s b c d)) /\
    (forall p, In p keptBottom -> In p (bottomSide s a b d)).
Proof.
  destruct topSide_cons as [top' Etop].
  set (seed := Point (s * a) (s * c)) in *.
  set (q1 := lastKept seed top').
  set (q2 := lastKept q1 (rightSide s b c d)).
  set (q3 := lastKept q2 (bottomSide s a b d)).
  exists (keepFrom seed top'), (keepFrom q1 (rightSide s b c d)),
         (keepFrom q2 (bottomSide s a b d)), (keepFrom q3 rest).
  assert (Hq1 : py q1 = s * c).
  { assert (Hin : In q1 (topSide s a b c)).
    { rewrite Etop. unfold q1, lastKept.
      destruct (last (keepFrom seed top')) as [r|] eqn:E; [|now left].
      right. apply last_In in E. eapply keepFrom_subset; eauto. }
    now apply topSide_In in Hin. }
  assert (HKB : keepFrom q1 (rightSide s b c d) <> []).
  { apply keepFrom_nonempty. exists (Point (s * b) (s * d)). split.
    - unfold rightSide. apply in_app_iff. right. now left.
    - apply far_dy. cbn [px py]. rewrite Hq1. lia. }
  assert (Hq2 : px q2 = s * b).
  { pose proof (lastKept_In q1 _ HKB) as Hin. fold q2 in Hin.
    apply keepFrom_subset in Hin. now apply rightSide_In in Hin. }
  assert (HKC : keepFrom q2 (bottomSide s a b d) <> []).
  { apply keepFrom_nonempty. exists (Point (s * a) (s * d)). split.
    - unfold bottomSide. apply in_app_iff. right. now left.
    - apply far_dx. cbn [px py]. rewrite Hq2. lia. }
  split; [|split; [exact HKB|split; [exact HKC|split]]].
  - rewrite Etop. rewrite <- !app_assoc. cbn [app]. rewrite simplify_cons.
    rewrite !keepFrom_app_last. reflexivity.
  - intros p Hp. eapply keepFrom_subset; eauto.
  - intros p Hp. eapply keepFrom_subset; eauto.
Qed.

End RectangleTrace.

(** C2, as the code has it: when the opaque region is a filled rectangle
    of at least 5 sampling steps (20 pixels) in both dimensions whose
    boundary fits the trace budget (width plus height at most 10000
    pixels), extraction at step 4 returns at least 3 points and each side
    of their bounding box is less than one sampling step inside the
    corresponding side of the rectangle. *)
Theorem rectangle_contour img x0 y0 x1 y1 :
  rectRegion img x0 y0 x1 y1 ->
  5 * 4 <= x1 - x0 ->
  5 * 4 <= y1 - y0 ->
  (x1 - x0) + (y1 - y0) <= 10000 ->
  exists pts bx0 by0 bx1 by1,
    getVerticesFromImage img 4 = Returns (Some pts) /\
    3 <= Z.of_nat (length pts) /\
    boundingBox pts = Some (bx0, by0, bx1, by1) /\
    x0 <= bx0 < x0 + 4 /\ y0 <= by0 < y0 + 4 /\
    x1 - 4 <= bx1 < x1 /\ y1 - 4 <= by1 < y1.
Proof.
  intros Hrect Hw Hh Hbudget.
  assert (Hcorner : inside img x0 y0).
  { apply getVal_solid_inside, Hrect. lia. }
  destruct Hcorner as [Hx0 Hy0].
  set (a := (x0 + 3) / 4). set (b := (x1 - 1) / 4).
  set (c := (y0 + 3) / 4). set (d := (y1 - 1) / 4).
  assert (Ha : x0 <= 4 * a < x0 + 4) by (subst a; Z.div_mod_to_equations; lia).
  assert (Hb : x1 - 4 <= 4 * b < x1) by (subst b; Z.div_mod_to_equations; lia).
  assert (Hc : y0 <= 4 * c < y0 + 4) by (subst c; Z.div_mod_to_equations; lia).
  assert (Hd : y1 - 4 <= 4 * d < y1) by (subst d; Z.div_mod_to_equations; lia).
  clearbody a b c d.
  assert (Hgrid : forall i j,
            getVal img (4 * i) (4 * j) = 1 <-> (a <= i <= b /\ c <= j <= d)).
  { intros i j. rewrite (Hrect (4 * i) (4 * j)). lia. }
  assert (Hsolid : getVal img (4 * a) (4 * c) = 1) by (apply Hgrid; lia).
  assert (Hfirst : firstSolidSample img 4 (4 * a) (4 * c)).
  { split; [|split; [exact Hsolid|]].
    - apply getVal_solid_inside in Hsolid as [Hxa Hyc].
      exists a, c. repeat split; lia.
    - intros x y (i & j & Hi & Hj & -> & -> & _) Hbefore.
      apply getVal_not1. replace (i * 4) with (4 * i) by lia.
      replace (j * 4) with (4 * j) by lia. rewrite Hgrid.
      unfold scannedBefore in Hbefore. lia. }
  pose proof (findSeed_first img 4 _ _ ltac:(lia) Hfirst) as Hseed.
  pose proof (extract_from_seed _ _ _ Hseed Hsolid) as Hres. cbn [px py] in Hres.
  pose proof (traceFrom_solid img 4 (4 * a) (4 * c) ltac:(lia) maxIter
                (4 * a) (4 * c) 0 (proj1 Hfirst) Hsolid) as Hpath.
  rewrite <- maxIter_S in Hres, Hpath.
  destruct (rect_path img 4 a b c d ltac:(lia) ltac:(lia) ltac:(lia) Hgrid
              (Nat.pred maxIter)) as [rest Epath].
  { rewrite pred_maxIter_Z. lia. }
  rewrite Epath in Hres, Hpath.
  destruct (rect_simplify 4 a b c d ltac:(lia) ltac:(lia) ltac:(lia)
              ltac:(lia) ltac:(lia) rest)
    as (kT & kR & kB & kRest & Esimp & HkR & HkB & HinR & HinB).
  rewrite Esimp in Hres.
  assert (Hsub : forall p,
            In p (Point (4 * a) (4 * c) :: kT ++ kR ++ kB ++ kRest) ->
            4 * a <= px p <= 4 * b /\ 4 * c <= py p <= 4 * d).
  { intros p Hp. rewrite <- Esimp in Hp. apply simplify_subset in Hp.
    rewrite Forall_forall in Hpath. apply list_elem_of_In in Hp.
    destruct (Hpath p Hp) as [(i & j & _ & _ & Hx & Hy & _) Hsol].
    rewrite Hx, Hy in Hsol.
    replace (i * 4) with (4 * i) in Hsol by lia.
    replace (j * 4) with (4 * j) in Hsol by lia.
    apply Hgrid in Hsol. lia. }
  destruct kR as [|r kR']; [contradiction|].
  destruct kB as [|u kB']; [contradiction|].
  pose proof (rightSide_In 4 b c d ltac:(lia) ltac:(lia) r (HinR r (or_introl eq_refl)))
    as [Hrx _].
  pose proof (bottomSide_In 4 a b d ltac:(lia) ltac:(lia) u (HinB u (or_introl eq_refl)))
    as [Huy _].
  exists (Point (4 * a) (4 * c) :: kT ++ (r :: kR') ++ (u :: kB') ++ kRest).
  exists (4 * a), (4 * c), (4 * b), (4 * d).
  split; [exact Hres|]. split.
  { cbn [length]. rewrite !length_app. cbn [length]. lia. }
  split; [|lia].
  apply boundingBox_tight; [exact Hsub| | | |].
  - exists (Point (4 * a) (4 * c)). split; [now left | reflexivity].
  - exists (Point (4 * a) (4 * c)). split; [now left | reflexivity].
  - exists r. split; [|exact Hrx].
    right. apply in_app_iff. right. now left.
  - exists u. split; [|exact Huy].
    right. apply in_app_iff. right. apply in_app_iff. right.
    apply in_app_iff. left. now left.
Qed.

Lemma rectangle_contour_witness :
  exists pts bx0 by0 bx1 by1,
    getVerticesFromImage (opaqueSquare 20) 4 = Returns (Some pts) /\
    3 <= Z.of_nat (length pts) /\
    boundingBox pts = Some (bx0, by0, bx1, by1) /\
    0 <= bx0 < 0 + 4 /\ 0 <= by0 < 0 + 4 /\
    20 - 4 <= bx1 < 20 /\ 20 - 4 <= by1 < 20.
Proof.
  apply (rectangle_contour (opaqueSquare 20) 0 0 20 20); [|lia|lia|lia].
  apply checkRect_sound. vm_compute. reflexivity.
Defined.

(** C2, as stated, fails: an opaque 8x8 square is a filled rectangle of
    twice the sampling step in both dimensions, and extraction returns the
    single point [(0, 0)]. *)
Lemma small_rectangle_one_point :
  rectRegion (opaqueSquare 8) 0 0 8 8 /\
  2 * 4 <= 8 - 0 /\
  getVerticesFromImage (opaqueSquare 8) 4 = Returns (Some [Point 0 0]) /\
  ~ (exists pts, getVerticesFromImage (opaqueSquare 8) 4 = Returns (Some pts) /\
                 3 <= Z.of_nat (length pts)).
Proof.
  assert (Hres : getVerticesFromImage (opaqueSquare 8) 4 = Returns (Some [Point 0 0])).
  { vm_compute. reflexivity. }
  split; [apply checkRect_sound; vm_compute; reflexivity|].
  split; [lia|]. split; [exact Hres|].
  intros (pts & Hpts & Hlen). rewrite Hres in Hpts.
  apply Returns_Some_inj in Hpts. subst pts. simpl in Hlen. lia.
Qed.

(** On a 16x16 square the filter keeps two points: four sampling steps do
    not suffice. *)
Example square16_two_points :
  getVerticesFromImage (opaqueSquare 16) 4 = Returns (Some [Point 0 0; Point 12 12]).
Proof. vm_compute. reflexivity. Qed.

(** A 64x64 image, opaque except for a border of 4 pixels: the seed is
    [(4, 4)] and the contour has 13 points. *)
Example bordered_square_contour :
  getVerticesFromImage
    (raster 64 64 (fun x y => (4 <=? x) && (x <? 60) && (4 <=? y) && (y <? 60))) 4
  = Returns (Some [Point 4 4; Point 20 4; Point 36 4; Point 52 4;
                   Point 56 20; Point 56 36; Point 56 52;
                   Point 40 56; Point 24 56; Point 8 56;
                   Point 4 40; Point 4 24; Point 4 8]).
Proof. vm_compute. reflexivity. Qed.

(** ** Scaling, fallback and the vertex cache *)

Import Game.

Section Pipeline.

Context {num : Type} `{JsNumber num}.
Variable fromVertices : list (@vertex num) -> bool.
Variable decode : string -> image.
Variable innerWidth : Z.

Lemma scaleVertices_length (k : num) (pts : list point) :
  length (scaleVertices k pts) = length pts.
Proof. unfold scaleVertices. apply length_map. Qed.

Lemma entryOf_cases (im : image) :
  exists raw, getVerticesFromImage im 4 = Returns raw /\
    ((exists pts, raw = Some pts /\ 2 < Z.of_nat (length pts) /\
        entryOf im = Returns (Entry (Some (scaleVertices (scaleOf im) pts))
                                    (scaleOf im) im)) \/
     ((raw = None \/ exists pts, raw = Some pts /\ Z.of_nat (length pts) < 3) /\
        entryOf im = Returns (Entry None (scaleOf im) im))).
Proof.
  destruct (extract_returns im 4 ltac:(lia)) as [raw Hraw].
  exists raw. split; [exact Hraw|].
  unfold entryOf. rewrite Hraw.
  destruct raw as [pts|]; cbn [option_map].
  - rewrite scaleVertices_length.
    destruct (2 <? Z.of_nat (length pts)) eqn:E.
    + left. exists pts. apply Z.ltb_lt in E. auto.
    + right. apply Z.ltb_ge in E. split; [|reflexivity].
      right. exists pts. split; [reflexivity | lia].
  - right. split; [now left | reflexivity].
Qed.

Lemma entryOf_returns (im : image) :
  exists e, entryOf im = Returns e /\ scale e = scaleOf im /\ img e = im.
Proof.
  destruct (entryOf_cases im) as (raw & _ & [(pts & _ & _ & ->)|[_ ->]]);
    eexists; repeat split.
Qed.

(** C8: the scale factor of a loaded image is
    [min(120 / width, 120 / height)].  When extraction returns more than 2
    points the cached vertices are exactly those points with both
    coordinates multiplied by that factor, and otherwise there are none;
    the body is the polygon of the cached vertices when
    [Bodies.fromVertices] accepts them and otherwise the rectangle
    [width * scale] by [height * scale]; and the sprite's [xScale] and
    [yScale] are that same factor. *)
Theorem scale_uniform (im : image) :
  exists raw e,
    getVerticesFromImage im 4 = Returns raw /\
    entryOf im = Returns e /\
    scale e = nmin (ndiv (ofZ 120) (ofZ (width im)))
                   (ndiv (ofZ 120) (ofZ (height im))) /\
    img e = im /\
    (forall pts, raw = Some pts -> 2 < Z.of_nat (length pts) ->
       vertices e = Some (map (fun v => (nmul (ofZ (px v)) (scale e),
                                         nmul (ofZ (py v)) (scale e))) pts)) /\
    ((raw = None \/ exists pts, raw = Some pts /\ Z.of_nat (length pts) <= 2) ->
       vertices e = None) /\
    forall x y assetPath,
      let bd := createdBody fromVertices x y assetPath e in
      let rectangle := Rectangle (nmul (ofZ (width im)) (scale e))
                                 (nmul (ofZ (height im)) (scale e)) in
      bodyX bd = x /\ bodyY bd = y /\
      sprite bd = Sprite assetPath (scale e) (scale e) /\
      (forall vs, vertices e = Some vs -> fromVertices vs = true ->
         bodyShape bd = Polygon vs) /\
      (forall vs, vertices e = Some vs -> fromVertices vs = false ->
         bodyShape bd = rectangle) /\
      (vertices e = None -> bodyShape bd = rectangle).
Proof.
  destruct (entryOf_cases im) as (raw & Hraw & [(pts & -> & Hlen & He)|[Hdeg He]]).
  - eexists _, _. split; [exact Hraw|]. split; [exact He|].
    cbn [scale img vertices]. split; [reflexivity|]. split; [reflexivity|].
    split; [intros pts' [= <-] _; reflexivity|].
    split.
    { intros [Hnone|(pts' & [= <-] & Hshort)]; [discriminate | lia]. }
    intros x y assetPath. cbv zeta. unfold createdBody.
    cbn [scale img vertices].
    destruct (fromVertices _) eqn:Efv; cbn [bodyX bodyY sprite bodyShape];
      (split; [reflexivity|]); (split; [reflexivity|]); (split; [reflexivity|]);
      (split; [|split]).
    + intros vs [= <-] _. reflexivity.
    + intros vs [= <-] Hfalse. congruence.
    + discriminate.
    + intros vs [= <-] Htrue. congruence.
    + intros vs [= <-] _. reflexivity.
    + discriminate.
  - eexists _, _. split; [exact Hraw|]. split; [exact He|].
    cbn [scale img vertices]. split; [reflexivity|]. split; [reflexivity|].
    split.
    { intros pts -> Hlen. destruct Hdeg as [Hnone|(pts' & [= <-] & Hshort)];
        [discriminate | lia]. }
    split; [reflexivity|].
    intros x y assetPath. cbv zeta. unfold createdBody.
    cbn [scale img vertices bodyX bodyY sprite bodyShape].
    split; [reflexivity|]. split; [reflexivity|]. split; [reflexivity|].
    split; [discriminate|]. split; [discriminate|reflexivity].
Qed.

(** On an opaque 20x20 image the factor is 120 / 20 and the entry holds
    the four contour points, each coordinate multiplied by it. *)
Example scaled_square_vertices :
  let im := opaqueSquare 20 in
  let k := Qmin (inject_Z 120 / inject_Z 20) (inject_Z 120 / inject_Z 20) in
  getVerticesFromImage im 4
    = Returns (Some [Point 0 0; Point 16 0; Point 16 16; Point 0 16]) /\
  entryOf (num := Q) im =
  Returns (Entry (Some [(inject_Z 0 * k, inject_Z 0 * k);
                        (inject_Z 16 * k, inject_Z 0 * k);
                        (inject_Z 16 * k, inject_Z 16 * k);
                        (inject_Z 0 * k, inject_Z 16 * k)]%Q) k im).
Proof. split; vm_compute; reflexivity. Qed.

(** C4: when extraction yields fewer than 3 points ([null] included) the
    cache entry records [vertices: null] and the body is the fallback
    rectangle [width * scale] by [height * scale]; and for every image the
    handler returns an entry from which [createBody] builds either that
    rectangle or a polygon of at least 3 vertices. *)
Theorem degenerate_contour_falls_back (im : image) raw (g : game) (i : nat) asset :
  getVerticesFromImage im 4 = Returns raw ->
  (raw = None \/ exists pts, raw = Some pts /\ Z.of_nat (length pts) < 3) ->
  loading g !! i = Some asset ->
  gameOver g = false ->
  decode asset = im ->
  let rectangle := Rectangle (nmul (ofZ (width im)) (scaleOf im))
                             (nmul (ofZ (height im)) (scaleOf im)) in
  entryOf im = Returns (Entry None (scaleOf im) im) /\
  (forall x y a,
     createdBody fromVertices x y a (Entry None (scaleOf im) im) =
     Body x y rectangle (Sprite a (scaleOf im) (scaleOf im))) /\
  (exists g', onload fromVertices decode innerWidth g i = Returns g' /\
     vertexCache g' !! asset = Some (Entry None (scaleOf im) im) /\
     currentBody g' =
       Some (Body (startX innerWidth) startY rectangle
                  (Sprite asset (scaleOf im) (scaleOf im)))) /\
  (forall im', exists e,
     entryOf im' = Returns e /\
     forall x y a,
       bodyShape (createdBody fromVertices x y a e) =
         Rectangle (nmul (ofZ (width im')) (scaleOf im'))
                   (nmul (ofZ (height im')) (scaleOf im')) \/
       exists vs, bodyShape (createdBody fromVertices x y a e) = Polygon vs /\
                  3 <= Z.of_nat (length vs)).
Proof.
  intros Hraw Hdeg Hload Hover Hdec rectangle.
  assert (He : entryOf im = Returns (Entry None (scaleOf im) im)).
  { destruct (entryOf_cases im) as (raw' & Hraw' & [(pts & -> & Hlen & _)|[_ He]]);
      [|exact He].
    rewrite Hraw in Hraw'. injection Hraw' as ->.
    destruct Hdeg as [Hnone|(pts' & [= <-] & Hshort)]; [discriminate | lia]. }
  split; [exact He|]. split; [reflexivity|]. split.
  - unfold onload. rewrite Hload. cbn [gameOver]. rewrite Hover, Hdec, He.
    eexists. split; [reflexivity|].
    unfold createBody. cbn [vertexCache currentBody].
    split; [apply lookup_insert_eq | reflexivity].
  - intros im'.
    destruct (entryOf_cases im') as (raw' & _ & [(pts & _ & Hlen & He')|[_ He']]);
      eexists; (split; [exact He'|]); intros x y a; unfold createdBody;
      cbn [vertices scale img].
    + destruct (fromVertices _); cbn [bodyShape]; [right|now left].
      eexists. split; [reflexivity|]. rewrite scaleVertices_length. lia.
    + now left.
Qed.

End Pipeline.

Lemma degenerate_contour_falls_back_witness :
  let im := raster 8 8 (fun _ _ => false) in
  entryOf (num := Q) im = Returns (Entry None (scaleOf im) im).
Proof.
  intros im.
  apply (degenerate_contour_falls_back (num := Q) demoFromVertices (fun _ => im) 800
           im None (spawnNewBody demoFromVertices 800 initial "assets/1.png") 0
           "assets/1.png").
  - vm_compute. reflexivity.
  - now left.
  - reflexivity.
  - reflexivity.
  - reflexivity.
Defined.

(** A single opaque pixel at [(4, 4)] of a 12x12 image: the trace is that
    one point, and the entry records no contour. *)
Example isolated_sample_falls_back :
  let im := raster 12 12 (fun x y => (x =? 4) && (y =? 4)) in
  getVerticesFromImage im 4 = Returns (Some [Point 4 4]) /\
  entryOf (num := Q) im = Returns (Entry None (scaleOf im) im).
Proof. split; vm_compute; reflexivity. Qed.

(** ** The vertex cache under interleaved requests *)

Section Cache.

Context {num : Type} `{JsNumber num}.
Variable fromVertices : list (@vertex num) -> bool.
Variable decode : string -> image.
Variable innerWidth : Z.

Local Abbreviation spawn := (spawnNewBody fromVertices innerWidth).
Local Abbreviation loaded := (onload fromVertices decode innerWidth).
Local Abbreviation run1 := (handle fromVertices decode innerWidth).
Local Abbreviation runAll := (handleAll fromVertices decode innerWidth).
Local Abbreviation sound := (coherent fromVertices decode innerWidth).

Lemma createdBody_texture x y a (e : entry) :
  texture (sprite (createdBody fromVertices x y a e)) = a.
Proof.
  unfold createdBody. destruct (vertices e) as [vs|]; [destruct (fromVertices vs)|];
    reflexivity.
Qed.

Lemma requests_snoc es e a :
  requests (es ++ [e]) a = (requests es a + (if isRequest a e then 1 else 0))%nat.
Proof.
  unfold requests. rewrite List.filter_app, length_app. cbn [List.filter].
  now destruct (isRequest a e).
Qed.

Lemma count_snoc (l : list string) a0 a :
  length (filter (fun x => x = a) (l ++ [a0])) =
  (length (filter (fun x => x = a) l) + (if bool_decide (a0 = a) then 1 else 0))%nat.
Proof.
  rewrite filter_app, length_app. f_equal.
  rewrite filter_cons. case_bool_decide; case_decide; try contradiction; reflexivity.
Qed.

Lemma count_delete (l : list string) i a0 a :
  l !! i = Some a0 ->
  (length (filter (fun x => x = a) (delete i l)) +
   (if bool_decide (a0 = a) then 1 else 0))%nat =
  length (filter (fun x => x = a) l).
Proof.
  intros Hi. rewrite <- (take_drop_middle l i a0 Hi) at 2.
  rewrite delete_take_drop, !filter_app, !length_app, filter_cons.
  case_bool_decide; case_decide; try contradiction; cbn [length]; lia.
Qed.

Lemma spawn_sound g a0 es :
  sound g -> accounted g es ->
  sound (spawn g a0) /\ accounted (spawn g a0) (es ++ [Spawn a0]).
Proof.
  intros Hsound Hacc. pose proof Hsound as (Hcache & Hworld & Hext).
  unfold spawnNewBody.
  assert (Hreq : forall a, (requests es a <= requests (es ++ [Spawn a0]) a)%nat).
  { intros a. rewrite requests_snoc. lia. }
  destruct (gameOver g) eqn:Eover.
  { split; [exact Hsound|]. intros a. specialize (Hacc a). specialize (Hreq a). lia. }
  destruct (vertexCache g !! a0) as [d|] eqn:Ehit.
  - split.
    + split; [exact Hcache|]. split; [|exact Hext].
      intros bd. cbn [createBody world]. rewrite in_app_iff.
      intros [Hin|[<-|[]]]; [now apply Hworld|].
      rewrite createdBody_texture. exists d. split; [now apply Hcache | reflexivity].
    + intros a. specialize (Hacc a). specialize (Hreq a).
      unfold extractions, pendingLoads, createBody in *. cbn [extracted loading] in *.
      lia.
  - split; [exact Hsound|].
    intros a. specialize (Hacc a). rewrite requests_snoc. cbn [isRequest].
    unfold extractions, pendingLoads in *. cbn [extracted loading] in *.
    rewrite count_snoc. lia.
Qed.

Lemma loaded_sound g i es :
  sound g -> accounted g es ->
  exists g', loaded g i = Returns g' /\ sound g' /\ accounted g' (es ++ [Loaded i]).
Proof.
  intros Hsound Hacc. pose proof Hsound as (Hcache & Hworld & Hext).
  unfold onload.
  assert (Hreq : forall a, requests (es ++ [Loaded i]) a = requests es a).
  { intros a. rewrite requests_snoc. cbn [isRequest]. lia. }
  destruct (loading g !! i) as [a0|] eqn:Eload.
  2:{ exists g. split; [reflexivity|]. split; [exact Hsound|].
      intros a. rewrite Hreq. apply Hacc. }
  cbn [gameOver].
  destruct (gameOver g) eqn:Eover.
  { eexists. split; [reflexivity|]. split; [exact Hsound|].
    intros a. rewrite Hreq. specialize (Hacc a).
    pose proof (count_delete (loading g) i a0 a Eload) as Hdel.
    unfold extractions, pendingLoads in *. cbn [extracted loading] in *. lia. }
  destruct (entryOf_returns (decode a0)) as (d & Hd & _).
  rewrite Hd. eexists. split; [reflexivity|].
  split; [split; [|split]|].
  - intros a e. cbn [createBody vertexCache]. rewrite lookup_insert.
    case_decide as Ea; [intros [= <-]; now subst | apply Hcache].
  - intros bd. cbn [createBody world]. rewrite in_app_iff.
    intros [Hin|[<-|[]]]; [now apply Hworld|].
    rewrite createdBody_texture. exists d. split; [exact Hd | reflexivity].
  - intros a. unfold extractions. cbn [createBody vertexCache extracted].
    rewrite count_snoc, lookup_insert. specialize (Hext a). unfold extractions in Hext.
    case_decide as Ea; case_bool_decide; try contradiction.
    + split; [discriminate | lia].
    + rewrite Nat.add_0_r. exact Hext.
  - intros a. rewrite Hreq. specialize (Hacc a).
    pose proof (count_delete (loading g) i a0 a Eload) as Hdel.
    unfold extractions, pendingLoads in *.
    cbn [createBody extracted loading] in *. rewrite count_snoc. lia.
Qed.

Lemma handle_sound g e es :
  sound g -> accounted g es ->
  exists g', run1 g e = Returns g' /\ sound g' /\ accounted g' (es ++ [e]).
Proof.
  intros Hsound Hacc. destruct e as [a|i|a|]; cbn [handle].
  - eexists. split; [reflexivity|]. now apply spawn_sound.
  - now apply loaded_sound.
  - eexists. split; [reflexivity|]. unfold startGame.
    set (g0 := GameState _ _ _ _ _ _ _).
    assert (Hsound0 : sound g0).
    { destruct Hsound as (Hcache & Hworld & Hext). split; [exact Hcache|].
      split; [intros bd []|exact Hext]. }
    destruct (spawn_sound g0 a es Hsound0 Hacc) as [Hs Ha].
    split; [exact Hs|]. intros b. specialize (Ha b).
    rewrite requests_snoc in *. exact Ha.
  - eexists. split; [reflexivity|]. unfold endGame.
    destruct (gameOver g); (split; [exact Hsound|]); intros a;
      rewrite requests_snoc; cbn [isRequest]; specialize (Hacc a);
      unfold extractions, pendingLoads in *; cbn [extracted loading] in *; lia.
Qed.

Lemma handleAll_sound es : forall g es0,
  sound g -> accounted g es0 ->
  exists g', runAll g es = Returns g' /\ sound g' /\ accounted g' (es0 ++ es).
Proof.
  induction es as [|e es IH]; intros g es0 Hsound Hacc.
  - exists g. rewrite app_nil_r. split; [reflexivity|]. now split.
  - destruct (handle_sound g e es0 Hsound Hacc) as (g1 & Hstep & Hs1 & Ha1).
    destruct (IH g1 (es0 ++ [e]) Hs1 Ha1) as (g' & Hrun & Hs' & Ha').
    exists g'. cbn [handleAll]. rewrite Hstep.
    split; [exact Hrun|]. split; [exact Hs'|].
    now rewrite <- app_assoc in Ha'.
Qed.

(** C9, as the code has it: after any sequence of requests, load
    completions, game starts and game ends, the handlers have returned;
    every cached entry is the one computed from the decoded asset and
    every body in the world is built from that entry; an asset is cached
    exactly when extraction has run for it; the extraction runs for an
    asset, with its loads in flight, number at most the requests made for
    it.  From such a state, while the game runs: a request for a cached
    asset reuses the entry without a new load or extraction; a request for
    an asset that is not cached starts one more load of it and nothing
    else; and a load that completes runs extraction once more, writes the
    entry computed from the decoded asset into the cache (equal to the
    entry already there, if any) and builds the body from it. *)
Theorem cache_behaviour (es : list event) :
  exists g,
    runAll initial es = Returns g /\
    (forall a e, vertexCache g !! a = Some e -> entryOf (decode a) = Returns e) /\
    (forall bd, In bd (world g) ->
       exists e, entryOf (decode (texture (sprite bd))) = Returns e /\
                 bd = createdBody fromVertices (startX innerWidth) startY
                                  (texture (sprite bd)) e) /\
    (forall a, vertexCache g !! a = None <-> extractions g a = 0%nat) /\
    (forall a, (extractions g a + pendingLoads g a <= requests es a)%nat) /\
    (forall a e, vertexCache g !! a = Some e -> gameOver g = false ->
       vertexCache (spawn g a) = vertexCache g /\
       extracted (spawn g a) = extracted g /\
       loading (spawn g a) = loading g /\
       currentBody (spawn g a) =
         Some (createdBody fromVertices (startX innerWidth) startY a e)) /\
    (forall a, vertexCache g !! a = None -> gameOver g = false ->
       loading (spawn g a) = loading g ++ [a] /\
       pendingLoads (spawn g a) a = S (pendingLoads g a) /\
       vertexCache (spawn g a) = vertexCache g /\
       extracted (spawn g a) = extracted g /\
       world (spawn g a) = world g /\
       currentBody (spawn g a) = currentBody g) /\
    (forall i a, loading g !! i = Some a -> gameOver g = false ->
       exists e g',
         entryOf (decode a) = Returns e /\
         loaded g i = Returns g' /\
         loading g' = delete i (loading g) /\
         extracted g' = extracted g ++ [a] /\
         extractions g' a = S (extractions g a) /\
         vertexCache g' = <[a := e]> (vertexCache g) /\
         (forall e0, vertexCache g !! a = Some e0 -> e0 = e) /\
         world g' = world g ++
           [createdBody fromVertices (startX innerWidth) startY a e] /\
         currentBody g' =
           Some (createdBody fromVertices (startX innerWidth) startY a e)).
Proof.
  destruct (handleAll_sound es initial []) as (g & Hrun & (Hc & Hw & He) & Hacc).
  - unfold coherent, initial, extractions. cbn [vertexCache world extracted].
    split; [intros a e; rewrite lookup_empty; discriminate|].
    split; [intros bd []|]. intros a. now rewrite lookup_empty.
  - intros a. unfold initial, extractions, pendingLoads.
    cbn [extracted loading]. rewrite filter_nil. cbn [length]. lia.
  - exists g. split; [exact Hrun|]. split; [exact Hc|]. split; [exact Hw|].
    split; [exact He|]. split; [exact Hacc|].
    split; [|split].
    + intros a e Hhit Hover. unfold spawnNewBody. rewrite Hover, Hhit.
      now repeat split.
    + intros a Hmiss Hover. unfold spawnNewBody, pendingLoads.
      rewrite Hover, Hmiss. cbn [loading vertexCache extracted world currentBody].
      split; [reflexivity|]. split; [|now repeat split].
      rewrite count_snoc. rewrite bool_decide_eq_true_2 by reflexivity. lia.
    + intros i a Hload Hover.
      destruct (entryOf_returns (decode a)) as (e & Hent & _).
      exists e. unfold onload. rewrite Hload. cbn [gameOver].
      rewrite Hover, Hent. eexists. split; [reflexivity|].
      split; [reflexivity|].
      unfold extractions.
      cbn [createBody loading extracted vertexCache world currentBody].
      split; [reflexivity|]. split; [reflexivity|].
      split.
      { rewrite count_snoc. rewrite bool_decide_eq_true_2 by reflexivity. lia. }
      split; [reflexivity|].
      split; [|split; reflexivity].
      intros e0 Hhit. pose proof (Hc _ _ Hhit) as E0. rewrite Hent in E0.
      now injection E0 as ->.
Qed.

End Cache.

(** C9, as stated, fails: two requests for the same uncached asset start
    two loads, and extraction runs once for each. *)
Lemma two_requests_two_extractions :
  exists g,
    handleAll demoFromVertices demoDecode 800 initial
      [Spawn "assets/1.png"; Spawn "assets/1.png"; Loaded 0; Loaded 0]
      = Returns g /\
    extractions g "assets/1.png" = 2%nat.
Proof. eexists. split; vm_compute; reflexivity. Qed.

(** * Further properties *)

(** ** The distance filter *)

Lemma far_irrefl p : far p p = false.
Proof. unfold far. apply Z.ltb_ge. lia. Qed.

Lemma not_far_distance p q : far p q = false <-> (distance p q <= 15)%R.
Proof.
  split; intros Hd.
  - apply Rnot_lt_le. intros Hlt. apply far_distance in Hlt. congruence.
  - destruct (far p q) eqn:E; [|reflexivity].
    apply far_distance in E. lra.
Qed.

Lemma keepFrom_spaced l : forall q i a b,
  (q :: keepFrom q l) !! i = Some a ->
  (q :: keepFrom q l) !! S i = Some b ->
  far a b = true.
Proof.
  induction l as [|p l IH]; intros q i a b Ha Hb; cbn [keepFrom] in *.
  - destruct i; discriminate.
  - destruct (far q p) eqn:E.
    + destruct i as [|i].
      * injection Ha as <-. injection Hb as <-. exact E.
      * apply (IH p i); assumption.
    + apply (IH q i); assumption.
Qed.

(** X1: two consecutive points of the simplified path are more than 15
    apart. *)
Theorem simplify_spacing P i a b :
  simplify P !! i = Some a ->
  simplify P !! S i = Some b ->
  (15 < distance a b)%R.
Proof.
  intros Ha Hb. apply far_distance.
  destruct P as [|p0 rest]; [discriminate|].
  rewrite simplify_cons in Ha, Hb. eapply keepFrom_spaced; eassumption.
Qed.

Lemma simplify_spacing_witness : (15 < distance (Point 0 0) (Point 16 0))%R.
Proof.
  apply (simplify_spacing [Point 0 0; Point 8 0; Point 16 0] 0); reflexivity.
Defined.

Lemma keepFrom_cover l : forall q p,
  In p l -> exists q', In q' (q :: keepFrom q l) /\ far q' p = false.
Proof.
  induction l as [|a l IH]; intros q p Hin; [destruct Hin|].
  cbn [keepFrom]. destruct (far q a) eqn:E.
  - destruct Hin as [<-|Hin].
    + exists a. split; [right; now left | apply far_irrefl].
    + destruct (IH a p Hin) as (q' & Hq' & Hnear).
      exists q'. split; [now right | exact Hnear].
  - destruct Hin as [<-|Hin].
    + exists q. split; [now left | exact E].
    + apply IH, Hin.
Qed.

(** X2: every point of the path is within distance 15 of a point the
    filter keeps (itself, when it is kept). *)
Theorem simplify_covers P p :
  In p P -> exists q, In q (simplify P) /\ (distance q p <= 15)%R.
Proof.
  intros Hin. destruct P as [|p0 rest]; [destruct Hin|].
  rewrite simplify_cons. destruct Hin as [<-|Hin].
  - exists p0. split; [now left|]. apply not_far_distance, far_irrefl.
  - destruct (keepFrom_cover rest p0 p Hin) as (q & Hq & Hnear).
    exists q. split; [exact Hq|]. now apply not_far_distance.
Qed.

Lemma simplify_covers_witness :
  exists q, In q (simplify [Point 0 0; Point 8 0; Point 16 0]) /\
            (distance q (Point 8 0) <= 15)%R.
Proof. apply simplify_covers. right. now left. Defined.

Lemma keepFrom_fixed l : forall q,
  (forall i a b, (q :: l) !! i = Some a -> (q :: l) !! S i = Some b ->
                 far a b = true) ->
  keepFrom q l = l.
Proof.
  induction l as [|p l IH]; intros q Hsp; [reflexivity|].
  cbn [keepFrom]. rewrite (Hsp 0%nat q p eq_refl eq_refl). f_equal.
  apply IH. intros i a b Ha Hb. apply (Hsp (S i)); assumption.
Qed.

(** X3: filtering an already filtered path changes nothing. *)
Theorem simplify_idempotent P : simplify (simplify P) = simplify P.
Proof.
  destruct P as [|p0 rest]; [reflexivity|].
  rewrite simplify_cons, simplify_cons. f_equal.
  apply keepFrom_fixed. intros i a b. apply keepFrom_spaced.
Qed.

(** ** The boundary tracer *)

Lemma nextStep_adjacent img s cx cy hd nx ny d :
  nextStep img s cx cy (code hd) = Some (nx, ny, d) ->
  exists hd', d = code hd' /\
    nx = cx + s * fst (delta hd') /\ ny = cy + s * snd (delta hd') /\
    getVal img nx ny = 1.
Proof.
  intros Hnext. destruct (nextStep_heading _ _ _ _ _ _ _ _ Hnext) as [hd' ->].
  exists hd'. split; [reflexivity|].
  unfold nextStep in Hnext.
  apply tryDirs_Some in Hnext as (_ & _ & _ & _ & Hc & Hsolid).
  rewrite candidate_code in Hc. injection Hc as <- <-.
  apply isSolid_true in Hsolid. auto.
Qed.

Lemma traceFrom_first img s sx sy n cx cy dir q :
  traceFrom img s sx sy n cx cy dir !! 0%nat = Some q -> q = Point cx cy.
Proof. destruct n; [discriminate|]. rewrite traceFrom_S. now intros [= <-]. Qed.

Lemma traceFrom_connected img s sx sy : forall n cx cy hd i p q,
  traceFrom img s sx sy n cx cy (code hd) !! i = Some p ->
  traceFrom img s sx sy n cx cy (code hd) !! S i = Some q ->
  exists hd', px q = px p + s * fst (delta hd') /\
              py q = py p + s * snd (delta hd') /\
              getVal img (px q) (py q) = 1.
Proof.
  induction n as [|n IH]; intros cx cy hd i p q Hp Hq; [discriminate|].
  rewrite traceFrom_S in Hp, Hq.
  destruct (nextStep img s cx cy (code hd)) as [[[nx ny] d]|] eqn:En;
    [|destruct i; discriminate].
  destruct (nextStep_adjacent _ _ _ _ _ _ _ _ En) as (hd' & -> & Hx & Hy & Hsolid).
  destruct (_ && _); [|destruct i; discriminate].
  destruct i as [|i].
  - injection Hp as <-. apply traceFrom_first in Hq. subst q.
    exists hd'. cbn [px py]. auto.
  - apply (IH nx ny hd' i); assumption.
Qed.

(** X4: the traced path is a walk on the sampling grid: each point is solid
    and lies exactly one sampling step from its predecessor, along one
    axis. *)
Theorem trace_connected img s sx sy i p q :
  traceFrom img s sx sy maxIter sx sy 0 !! i = Some p ->
  traceFrom img s sx sy maxIter sx sy 0 !! S i = Some q ->
  getVal img (px q) (py q) = 1 /\
  ((px q = px p /\ Z.abs (py q - py p) = Z.abs s) \/
   (py q = py p /\ Z.abs (px q - px p) = Z.abs s)).
Proof.
  intros Hp Hq.
  destruct (traceFrom_connected img s sx sy maxIter sx sy Right i p q Hp Hq)
    as (hd & Hx & Hy & Hsolid).
  split; [exact Hsolid|].
  destruct hd; cbn [delta fst snd] in Hx, Hy; lia.
Qed.

Lemma trace_connected_witness :
  getVal (opaqueSquare 8) 4 0 = 1 /\
  ((4 = 0 /\ Z.abs (0 - 0) = Z.abs 4) \/ (0 = 0 /\ Z.abs (4 - 0) = Z.abs 4)).
Proof.
  apply (trace_connected (opaqueSquare 8) 4 0 0 0 (Point 0 0) (Point 4 0));
    vm_compute; reflexivity.
Defined.

(** X5: when none of the four neighbours of the seed is solid, the result
    is the seed alone. *)
Theorem isolated_seed_single_point img s sx sy :
  0 < s ->
  findSeed img s = Returns (Some (Point sx sy)) ->
  getVal img (sx + s) sy = 0 ->
  getVal img sx (sy + s) = 0 ->
  getVal img (sx - s) sy = 0 ->
  getVal img sx (sy - s) = 0 ->
  getVerticesFromImage img s = Returns (Some [Point sx sy]).
Proof.
  intros Hs Hseed Hr Hd Hl Hu.
  pose proof (findSeed_Some _ _ _ Hs Hseed) as (_ & Hsolid & _).
  rewrite (extract_from_seed _ _ _ Hseed Hsolid). cbn [px py].
  rewrite <- maxIter_S, traceFrom_S.
  assert (Hnone : nextStep img s sx sy 0 = None).
  { unfold nextStep. apply tryDirs_None.
    apply isSolid_false in Hr, Hd, Hl, Hu.
    repeat constructor; unfold candidate, step; cbn; assumption. }
  rewrite Hnone. reflexivity.
Qed.

Lemma isolated_seed_single_point_witness :
  getVerticesFromImage (raster 12 12 (fun x y => (x =? 4) && (y =? 4))) 4
  = Returns (Some [Point 4 4]).
Proof.
  apply isolated_seed_single_point; [lia|vm_compute; reflexivity ..].
Defined.

Lemma line_snoc k : forall x y dx dy,
  line (S k) x y dx dy =
  line k x y dx dy ++ [Point (x + Z.of_nat k * dx) (y + Z.of_nat k * dy)].
Proof.
  induction k as [|k IH]; intros x y dx dy.
  - cbn [line app]. do 2 f_equal; lia.
  - change (line (S (S k)) x y dx dy)
      with (Point x y :: line (S k) (x + dx) (y + dy) dx dy).
    rewrite IH, Nat2Z.inj_succ. cbn [line app]. do 4 f_equal; lia.
Qed.

Lemma state_eq (x y x' y' d : Z) :
  x = x' -> y = y' -> Some (x, y, d) = Some (x', y', d).
Proof. now intros -> ->. Qed.

(** The loop ends where the next position is the seed. *)
Lemma trace_close img s sx sy m cx cy dir d :
  nextStep img s cx cy dir = Some (sx, sy, d) ->
  traceFrom img s sx sy (S m) cx cy dir = [Point cx cy].
Proof.
  intros Hnext. rewrite traceFrom_S, Hnext, !Z.eqb_refl. reflexivity.
Qed.

Section RectanglePerimeter.

Variable img : image.
Variables s a b c d : Z.
Hypothesis Hs : 0 < s.
Hypothesis Hab : a < b.
Hypothesis Hcd : c < d.
Hypothesis Hgrid : forall i j,
  getVal img (s * i) (s * j) = 1 <-> (a <= i <= b /\ c <= j <= d).

Local Abbreviation solid := (solidAt img s a b c d Hgrid).
Local Abbreviation empty := (emptyAt img s a b c d Hgrid).

(** From the bottom-left corner, heading left, back up to the seed. *)
Lemma rect_left (M : nat) :
  d - c - 1 <= Z.of_nat M ->
  traceFrom img s (s * a) (s * c) (S M) (s * a) (s * d) (code Left) =
  Point (s * a) (s * d) :: leftSide s a c d.
Proof.
  intros HM. unfold leftSide.
  destruct (decide (d - c = 1)) as [E1|E1].
  - replace (Z.to_nat (d - c - 1)) with 0%nat by lia. cbn [line].
    apply (trace_close _ _ _ _ _ _ _ _ (code Up)).
    rewrite (nextStep_right img s _ _ Left); cbn [delta fst snd turnLeft turnRight code].
    + apply state_eq; nia.
    + apply (empty _ _ a (d + 1)); lia.
    + apply (empty _ _ (a - 1) d); lia.
    + apply (solid _ _ a (d - 1)); lia.
  - destruct M as [|M]; [lia|].
    assert (Hend : forall m X Y, X = s * a -> Y = s * (c + 1) ->
              traceFrom img s (s * a) (s * c) (S m) X Y (code Up) =
              [Point (s * a) (s * (c + 1))]).
    { intros m X Y -> ->. apply (trace_close _ _ _ _ _ _ _ _ (code Up)).
      rewrite (nextStep_straight img s _ _ Up); cbn [delta fst snd turnLeft].
      - apply state_eq; nia.
      - apply (empty _ _ (a - 1) (c + 1)); nia.
      - apply (solid _ _ a c); nia. }
    rewrite (trace_turn img s _ _ Left M); cbn [delta fst snd turnLeft turnRight].
    + f_equal.
      replace (Z.to_nat (d - c - 1)) with (S (Z.to_nat (d - c - 2))) by lia.
      rewrite line_snoc.
      rewrite (trace_run img s _ _ Up (Z.to_nat (d - c - 2)) M).
      * cbn [delta fst snd]. rewrite !Z2Nat.id by lia.
        rewrite Hend by lia.
        f_equal; [f_equal; lia|]. do 2 f_equal; lia.
      * intros i Hi. cbn [delta fst snd turnLeft]. repeat split.
        -- apply (empty _ _ (a - 1) (d - 1 - i)); lia.
        -- apply (solid _ _ a (d - 1 - i - 1)); lia.
        -- right. nia.
      * lia.
    + apply (empty _ _ a (d + 1)); lia.
    + apply (empty _ _ (a - 1) d); lia.
    + apply (solid _ _ a (d - 1)); lia.
    + right. nia.
Qed.

Lemma rect_perimeter (M : nat) :
  2 * (b - a) + 2 * (d - c) <= Z.of_nat M + 1 ->
  traceFrom img s (s * a) (s * c) (S M) (s * a) (s * c) 0 =
  topSide s a b c ++ rightSide s b c d ++ bottomSide s a b d ++ leftSide s a c d.
Proof.
  intros HM.
  change (traceFrom img s (s * a) (s * c) (S M) (s * a) (s * c) 0)
    with (traceFrom img s (s * a) (s * c) (S M) (s * a) (s * c) (code Right)).
  set (k1 := Z.to_nat (b - a)). set (k2 := Z.to_nat (d - c - 1)).
  set (k3 := Z.to_nat (b - a - 1)).
  rewrite (rect_top img s a b c d Hs Hab Hcd Hgrid) by lia. fold k1.
  replace (S (M - k1)) with (S (S (M - k1 - 1))) by lia.
  rewrite (rect_corner1 img s a b c d Hs Hab Hcd Hgrid).
  rewrite (rect_right img s a b c d Hs Hab Hcd Hgrid) by lia. fold k2.
  replace (S (M - k1 - 1 - k2)) with (S (S (M - k1 - 1 - k2 - 1))) by lia.
  rewrite (rect_corner2 img s a b c d Hs Hab Hcd Hgrid).
  rewrite (rect_bottom img s a b c d Hs Hab Hcd Hgrid) by lia. fold k3.
  rewrite rect_left by lia.
  unfold topSide, rightSide, bottomSide. fold k1 k2 k3.
  rewrite <- !app_assoc. reflexivity.
Qed.

End RectanglePerimeter.

(** X6: for a filled rectangle of at least two sampling steps a side whose
    boundary fits the budget, the traced path is exactly the boundary of
    its grid points, from the top-left one along the top row, down the
    right column, back along the bottom row and up the left column. *)
Theorem rectangle_trace_is_perimeter img x0 y0 x1 y1 :
  rectRegion img x0 y0 x1 y1 ->
  2 * 4 <= x1 - x0 ->
  2 * 4 <= y1 - y0 ->
  (x1 - x0) + (y1 - y0) <= 10000 ->
  let a := (x0 + 3) / 4 in
  let b := (x1 - 1) / 4 in
  let c := (y0 + 3) / 4 in
  let d := (y1 - 1) / 4 in
  findSeed img 4 = Returns (Some (Point (4 * a) (4 * c))) /\
  traceFrom img 4 (4 * a) (4 * c) maxIter (4 * a) (4 * c) 0 =
  topSide 4 a b c ++ rightSide 4 b c d ++ bottomSide 4 a b d ++ leftSide 4 a c d.
Proof.
  intros Hrect Hw Hh Hbudget a b c d.
  assert (Hcorner : inside img x0 y0).
  { apply getVal_solid_inside, Hrect. lia. }
  destruct Hcorner as [Hx0 Hy0].
  assert (Ha : x0 <= 4 * a < x0 + 4) by (subst a; Z.div_mod_to_equations; lia).
  assert (Hb : x1 - 4 <= 4 * b < x1) by (subst b; Z.div_mod_to_equations; lia).
  assert (Hc : y0 <= 4 * c < y0 + 4) by (subst c; Z.div_mod_to_equations; lia).
  assert (Hd : y1 - 4 <= 4 * d < y1) by (subst d; Z.div_mod_to_equations; lia).
  clearbody a b c d.
  assert (Hgrid : forall i j,
            getVal img (4 * i) (4 * j) = 1 <-> (a <= i <= b /\ c <= j <= d)).
  { intros i j. rewrite (Hrect (4 * i) (4 * j)). lia. }
  assert (Hsolid : getVal img (4 * a) (4 * c) = 1) by (apply Hgrid; lia).
  split.
  - apply findSeed_first; [lia|].
    split; [|split; [exact Hsolid|]].
    + apply getVal_solid_inside in Hsolid as [Hxa Hyc].
      exists a, c. repeat split; lia.
    + intros x y (i & j & Hi & Hj & -> & -> & _) Hbefore.
      apply getVal_not1. replace (i * 4) with (4 * i) by lia.
      replace (j * 4) with (4 * j) by lia. rewrite Hgrid.
      unfold scannedBefore in Hbefore. lia.
  - rewrite <- maxIter_S.
    apply (rect_perimeter img 4 a b c d); [lia|lia|lia|exact Hgrid|].
    rewrite pred_maxIter_Z. lia.
Qed.

Lemma rectangle_trace_is_perimeter_witness :
  traceFrom (opaqueSquare 8) 4 (4 * ((0 + 3) / 4)) (4 * ((0 + 3) / 4)) maxIter
            (4 * ((0 + 3) / 4)) (4 * ((0 + 3) / 4)) 0 =
  topSide 4 ((0 + 3) / 4) ((8 - 1) / 4) ((0 + 3) / 4) ++
  rightSide 4 ((8 - 1) / 4) ((0 + 3) / 4) ((8 - 1) / 4) ++
  bottomSide 4 ((0 + 3) / 4) ((8 - 1) / 4) ((8 - 1) / 4) ++
  leftSide 4 ((0 + 3) / 4) ((0 + 3) / 4) ((8 - 1) / 4).
Proof.
  apply (rectangle_trace_is_perimeter (opaqueSquare 8) 0 0 8 8); [|lia|lia|lia].
  apply checkRect_sound. vm_compute. reflexivity.
Defined.

(** ** Extraction reads the sampling grid only *)

Section GridOnly.

Variables img1 img2 : image.
Variable s : Z.
Hypothesis Hs : 0 < s.
Hypothesis Hagree : forall i j,
  getVal img1 (i * s) (j * s) = getVal img2 (i * s) (j * s).

Lemma tryDirs_agree ds i j :
  tryDirs img1 s ds (i * s) (j * s) = tryDirs img2 s ds (i * s) (j * s).
Proof.
  induction ds as [|d0 ds IH]; cbn [tryDirs]; [reflexivity|].
  destruct (candidate s d0 (i * s) (j * s)) as [nx ny] eqn:Ec.
  assert (Hsame : isSolid img1 nx ny = isSolid img2 nx ny).
  { unfold isSolid. f_equal.
    destruct (candidate_cases s d0 (i * s) (j * s)) as [E|[E|[E|[E|E]]]];
      rewrite E in Ec; injection Ec as <- <-.
    - apply Hagree.
    - replace (i * s + s) with ((i + 1) * s) by lia. apply Hagree.
    - replace (j * s + s) with ((j + 1) * s) by lia. apply Hagree.
    - replace (i * s - s) with ((i - 1) * s) by lia. apply Hagree.
    - replace (j * s - s) with ((j - 1) * s) by lia. apply Hagree. }
  rewrite Hsame, IH. reflexivity.
Qed.

Lemma nextStep_on_grid img i j dir nx ny d :
  nextStep img s (i * s) (j * s) dir = Some (nx, ny, d) ->
  exists i' j', nx = i' * s /\ ny = j' * s.
Proof.
  unfold nextStep. intros Hnext.
  apply tryDirs_Some in Hnext as (_ & _ & _ & _ & Hc & _).
  destruct (candidate_cases s d (i * s) (j * s)) as [E|[E|[E|[E|E]]]];
    rewrite E in Hc; injection Hc as <- <-.
  - exists i, j. lia.
  - exists (i + 1), j. lia.
  - exists i, (j + 1). lia.
  - exists (i - 1), j. lia.
  - exists i, (j - 1). lia.
Qed.

Lemma traceFrom_agree sx sy : forall n i j dir,
  traceFrom img1 s sx sy n (i * s) (j * s) dir =
  traceFrom img2 s sx sy n (i * s) (j * s) dir.
Proof.
  induction n as [|n IH]; intros i j dir; [reflexivity|].
  rewrite !traceFrom_S. f_equal.
  unfold nextStep at 2. rewrite <- tryDirs_agree. fold (nextStep img1 s (i * s) (j * s) dir).
  destruct (nextStep img1 s (i * s) (j * s) dir) as [[[nx ny] d]|] eqn:En;
    [|reflexivity].
  destruct (nextStep_on_grid _ _ _ _ _ _ _ En) as (i' & j' & -> & ->).
  now rewrite IH.
Qed.

Lemma firstSolidSample_agree sx sy :
  firstSolidSample img1 s sx sy ->
  (forall i j, getVal img1 (i * s) (j * s) = getVal img2 (i * s) (j * s)) ->
  firstSolidSample img2 s sx sy.
Proof.
  intros ((i & j & Hi & Hj & -> & -> & Hxw & Hyh) & Hsolid & Hbefore) Hsame.
  assert (Hsolid2 : getVal img2 (i * s) (j * s) = 1) by now rewrite <- Hsame.
  split; [|split; [exact Hsolid2|]].
  - apply getVal_solid_inside in Hsolid2 as [Hx2 Hy2].
    exists i, j. repeat split; lia.
  - intros x y (i' & j' & Hi' & Hj' & -> & -> & Hxw' & Hyh') Hb.
    rewrite <- Hsame.
    destruct (decide (inside img1 (i' * s) (j' * s))) as [[Hin1 Hin2]|Hout].
    + apply Hbefore; [|exact Hb]. exists i', j'. repeat split; lia.
    + now apply getVal_outside.
Qed.

End GridOnly.

(** X7: extraction looks at the image only through the solidity of the
    grid points: two images that agree there, whatever their other pixels
    and sizes, give the same result. *)
Theorem extraction_reads_grid_only img1 img2 s :
  0 < s ->
  (forall i j, getVal img1 (i * s) (j * s) = getVal img2 (i * s) (j * s)) ->
  getVerticesFromImage img1 s = getVerticesFromImage img2 s.
Proof.
  intros Hs Hagree.
  destruct (findSeed_returns img1 s Hs) as [[p|] Hr1].
  - pose proof (findSeed_Some _ _ _ Hs Hr1) as Hfirst.
    pose proof (firstSolidSample_agree img1 img2 s _ _ Hfirst Hagree) as Hfirst2.
    pose proof (findSeed_first _ _ _ _ Hs Hfirst2) as Hr2.
    destruct p as [sx sy]. cbn [px py] in *.
    rewrite (extract_from_seed img1 s _ Hr1 (proj1 (proj2 Hfirst))).
    rewrite (extract_from_seed img2 s _ Hr2 (proj1 (proj2 Hfirst2))).
    cbn [px py].
    destruct Hfirst as ((i & j & _ & _ & -> & -> & _) & _).
    now rewrite (traceFrom_agree img1 img2 s Hagree).
  - rewrite (extract_no_seed _ _ Hr1).
    destruct (findSeed_returns img2 s Hs) as [[p|] Hr2].
    + exfalso.
      pose proof (findSeed_Some _ _ _ Hs Hr2) as Hfirst2.
      assert (Hsym : forall i j,
                getVal img2 (i * s) (j * s) = getVal img1 (i * s) (j * s))
        by (intros; symmetry; apply Hagree).
      pose proof (firstSolidSample_agree img2 img1 s _ _ Hfirst2 Hsym) as Hfirst1.
      pose proof (findSeed_first _ _ _ _ Hs Hfirst1) as Hr1'.
      rewrite Hr1 in Hr1'. discriminate.
    + now rewrite (extract_no_seed _ _ Hr2).
Qed.

Lemma extraction_reads_grid_only_witness :
  getVerticesFromImage (opaqueSquare 8) 4 =
  getVerticesFromImage
    (raster 8 8 (fun x y => (x mod 4 =? 0) && (y mod 4 =? 0))) 4.
Proof.
  apply extraction_reads_grid_only; [lia|].
  intros i j.
  destruct (decide (0 <= i * 4 < 8 /\ 0 <= j * 4 < 8)) as [[Hi Hj]|Hout].
  - unfold opaqueSquare. rewrite !getVal_raster by lia.
    rewrite !Z.mod_mul by lia. reflexivity.
  - rewrite !getVal_outside; [reflexivity| |]; unfold inside; cbn; exact Hout.
Defined.

(** ** The ranking kept by [saveScore] *)

Import Ranking.

Lemma insertDesc_perm e l : insertDesc e l ≡ₚ e :: l.
Proof.
  induction l as [|b l IH]; cbn [insertDesc]; [reflexivity|].
  destruct (score e <? score b); [|reflexivity].
  rewrite IH. apply Permutation_swap.
Qed.

Lemma sortDesc_perm l : sortDesc l ≡ₚ l.
Proof.
  induction l as [|e l IH]; cbn [sortDesc]; [reflexivity|].
  now rewrite insertDesc_perm, IH.
Qed.

Lemma insertDesc_In e l x : In x (insertDesc e l) <-> x = e \/ In x l.
Proof.
  rewrite <- !list_elem_of_In, insertDesc_perm, elem_of_cons. reflexivity.
Qed.

Lemma insertDesc_descending e l : descending l -> descending (insertDesc e l).
Proof.
  induction l as [|b l IH]; intros Hd; cbn [insertDesc].
  - split; [intros x []|exact I].
  - destruct Hd as [Hb Hl]. destruct (score e <? score b) eqn:E.
    + apply Z.ltb_lt in E. split; [|now apply IH].
      intros x Hx. apply insertDesc_In in Hx as [->|Hx]; [lia | now apply Hb].
    + apply Z.ltb_ge in E. split; [|now split].
      intros x [<-|Hx]; [exact E|]. specialize (Hb x Hx). lia.
Qed.

Lemma sortDesc_descending l : descending (sortDesc l).
Proof.
  induction l as [|e l IH]; cbn [sortDesc]; [exact I|].
  now apply insertDesc_descending.
Qed.

Lemma descending_lookup l : descending l ->
  forall i j a b, (i < j)%nat -> l !! i = Some a -> l !! j = Some b ->
                  score b <= score a.
Proof.
  induction l as [|e l IH]; intros Hd i j a b Hij Ha Hb; [discriminate|].
  destruct Hd as [He Hl]. destruct j as [|j]; [lia|].
  cbn in Hb. destruct i as [|i].
  - injection Ha as <-. apply He.
    apply list_elem_of_In, list_elem_of_lookup. eauto.
  - cbn in Ha. apply (IH Hl i j); [lia|assumption|assumption].
Qed.

Lemma descending_take n l : descending l -> descending (take n l).
Proof.
  revert n. induction l as [|e l IH]; intros n Hd; destruct n; cbn; auto.
  destruct Hd as [He Hl]. split; [|now apply IH].
  intros x Hx. apply He.
  apply list_elem_of_In in Hx. apply list_elem_of_In.
  now apply (subseteq_take n l).
Qed.

(** X8: after [saveScore] the storage holds the old entries and the new
    one cut to five: [min 5 (n + 1)] entries. *)
Theorem saveScore_length st trimmed sc :
  exists top,
    saveScore st trimmed sc = Some top /\
    length top = Nat.min 5 (length (loadRanking st) + 1).
Proof.
  eexists. split; [reflexivity|].
  rewrite length_take, sortDesc_perm, length_app. cbn [length]. lia.
Qed.

(** X9: after [saveScore] the stored entries are in descending order of
    score, whatever the order of the stored array was before. *)
Theorem saveScore_sorted st trimmed sc top i j a b :
  saveScore st trimmed sc = Some top ->
  (i < j)%nat -> top !! i = Some a -> top !! j = Some b ->
  score b <= score a.
Proof.
  intros [= <-]. apply descending_lookup, descending_take, sortDesc_descending.
Qed.

Lemma saveScore_sorted_witness : score (RankEntry "b" 3) <= score (RankEntry "a" 7).
Proof.
  apply (saveScore_sorted (Some [RankEntry "b" 3]) "a" 7
           [RankEntry "a" 7; RankEntry "b" 3] 0 1); (reflexivity || lia).
Defined.

(** X10: [saveScore] invents and loses nothing above the cut: the stored
    entries together with the dropped ones are the old entries and the new
    one, and no dropped entry has a higher score than a stored one. *)
Theorem saveScore_keeps_best st trimmed sc :
  exists top dropped,
    saveScore st trimmed sc = Some top /\
    top ++ dropped ≡ₚ loadRanking st ++ [RankEntry (playerName trimmed) sc] /\
    forall a b, In a top -> In b dropped -> score b <= score a.
Proof.
  set (sorted := sortDesc (loadRanking st ++ [RankEntry (playerName trimmed) sc])).
  exists (take 5 sorted), (drop 5 sorted).
  split; [reflexivity|]. split.
  - rewrite take_drop. apply sortDesc_perm.
  - intros a b Ha Hb.
    apply list_elem_of_In, list_elem_of_lookup in Ha as [i Hi].
    apply list_elem_of_In, list_elem_of_lookup in Hb as [j Hj].
    pose proof (lookup_lt_Some _ _ _ Hi) as Hlen. rewrite length_take in Hlen.
    rewrite lookup_take_lt in Hi by lia. rewrite lookup_drop in Hj.
    apply (descending_lookup sorted (sortDesc_descending _) i (5 + j)); [lia|assumption|assumption].
Qed.

(** The sort is stable: entries of one score keep their order. *)
Lemma insertDesc_stable v e l :
  filter (fun b => score b = v) (insertDesc e l) =
  filter (fun b => score b = v) (e :: l).
Proof.
  induction l as [|b l IH]; cbn [insertDesc]; [reflexivity|].
  destruct (score e <? score b) eqn:E; [|reflexivity].
  apply Z.ltb_lt in E.
  rewrite filter_cons, IH, !filter_cons.
  repeat case_decide; try reflexivity; lia.
Qed.

Lemma sortDesc_stable v l :
  filter (fun b => score b = v) (sortDesc l) = filter (fun b => score b = v) l.
Proof.
  induction l as [|e l IH]; cbn [sortDesc]; [reflexivity|].
  now rewrite insertDesc_stable, !filter_cons, IH.
Qed.

Lemma insertDesc_head e l :
  (forall x, In x l -> score x <= score e) -> insertDesc e l = e :: l.
Proof.
  destruct l as [|b l]; intros Hle; cbn [insertDesc]; [reflexivity|].
  specialize (Hle b (or_introl eq_refl)).
  destruct (score e <? score b) eqn:E; [apply Z.ltb_lt in E; lia | reflexivity].
Qed.

Lemma filter_all (P : rankEntry -> Prop) `{forall x, Decision (P x)} l :
  (forall x, In x l -> P x) -> filter P l = l.
Proof.
  induction l as [|b l IH]; intros Hall; [reflexivity|].
  rewrite filter_cons_True by (apply Hall; now left).
  f_equal. apply IH. intros x Hx. apply Hall. now right.
Qed.

Lemma filter_none (P : rankEntry -> Prop) `{forall x, Decision (P x)} l :
  (forall x, In x l -> ~ P x) -> filter P l = [].
Proof.
  induction l as [|b l IH]; intros Hall; [reflexivity|].
  rewrite filter_cons_False by (apply Hall; now left).
  apply IH. intros x Hx. apply Hall. now right.
Qed.

Lemma sortDesc_snoc e l :
  descending l ->
  sortDesc (l ++ [e]) =
  filter (fun b => score e <= score b) l ++ e :: filter (fun b => score b < score e) l.
Proof.
  induction l as [|b l IH]; intros Hd; [reflexivity|].
  destruct Hd as [Hb Hl]. cbn [app sortDesc]. rewrite (IH Hl).
  destruct (decide (score e <= score b)) as [Hge|Hlt].
  - rewrite filter_cons_True by exact Hge.
    rewrite (filter_cons_False (fun x => score x < score e)) by lia.
    apply insertDesc_head. intros x Hx.
    apply in_app_iff in Hx as [Hx|[<-|Hx]]; [| exact Hge |];
      apply list_elem_of_In, list_elem_of_filter in Hx as [_ Hx];
      apply Hb, list_elem_of_In, Hx.
  - rewrite filter_cons_False by exact Hlt.
    rewrite (filter_cons_True (fun x => score x < score e)) by lia.
    rewrite filter_none by (intros x Hx; specialize (Hb x Hx); lia).
    rewrite filter_all by (intros x Hx; specialize (Hb x Hx); lia).
    cbn [app insertDesc].
    replace (score b <? score e) with true by (symmetry; apply Z.ltb_lt; lia).
    f_equal. now apply insertDesc_head.
Qed.

Lemma saveScore_position_aux st trimmed sc :
  descending (loadRanking st) ->
  saveScore st trimmed sc =
  Some (take 5 (filter (fun b => sc <= score b) (loadRanking st) ++
                RankEntry (playerName trimmed) sc ::
                filter (fun b => score b < sc) (loadRanking st))).
Proof.
  intros Hd. unfold saveScore. cbv zeta.
  now rewrite (sortDesc_snoc (RankEntry (playerName trimmed) sc) _ Hd).
Qed.

(** X11: when the stored ranking is in descending order, [saveScore] puts
    the new entry after every stored entry of the same or a higher score
    and before the lower ones, then keeps the first five. *)
Theorem saveScore_position st trimmed sc :
  descending (loadRanking st) ->
  saveScore st trimmed sc =
  Some (take 5 (filter (fun b => sc <= score b) (loadRanking st) ++
                RankEntry (playerName trimmed) sc ::
                filter (fun b => score b < sc) (loadRanking st))).
Proof. apply saveScore_position_aux. Qed.

Lemma saveScore_position_witness :
  saveScore (Some [RankEntry "a" 7; RankEntry "b" 3]) "c" 3 =
  Some (take 5 (filter (fun b => 3 <= score b) [RankEntry "a" 7; RankEntry "b" 3] ++
                RankEntry (playerName "c") 3 ::
                filter (fun b => score b < 3) [RankEntry "a" 7; RankEntry "b" 3])).
Proof.
  apply (saveScore_position (Some [RankEntry "a" 7; RankEntry "b" 3]) "c" 3).
  cbn. repeat split; intros b Hb; repeat (destruct Hb as [<-|Hb]; [cbn; lia|]);
    destruct Hb.
Defined.

(** X12: a score that does not beat the fifth entry of a descending table
    leaves the table as it is: a tie with the last place does not enter. *)
Theorem saveScore_full_table st trimmed sc fifth :
  descending (loadRanking st) ->
  loadRanking st !! 4%nat = Some fifth ->
  sc <= score fifth ->
  saveScore st trimmed sc = Some (take 5 (loadRanking st)).
Proof.
  intros Hd Hfifth Hle. rewrite (saveScore_position_aux st trimmed sc Hd).
  set (old := loadRanking st) in *.
  pose proof (lookup_lt_Some _ _ _ Hfifth) as Hlen.
  rewrite <- (take_drop 5 old) at 1.
  rewrite filter_app.
  rewrite (filter_all (fun b => sc <= score b) (take 5 old)).
  - rewrite <- !app_assoc. rewrite take_app_le by (rewrite length_take; lia).
    rewrite take_take. f_equal.
  - intros x Hx. apply list_elem_of_In, list_elem_of_lookup in Hx as [i Hi].
    apply lookup_take_Some in Hi as [Hi Hlt].
    destruct (decide (i = 4%nat)) as [->|Hne].
    + rewrite Hfifth in Hi. injection Hi as <-. exact Hle.
    + pose proof (descending_lookup old Hd i 4 x fifth ltac:(lia) Hi Hfifth). lia.
Qed.

Lemma saveScore_full_table_witness :
  saveScore (Some [RankEntry "a" 9; RankEntry "b" 8; RankEntry "c" 7;
                   RankEntry "d" 6; RankEntry "e" 5]) "f" 5 =
  Some (take 5 (loadRanking
                  (Some [RankEntry "a" 9; RankEntry "b" 8; RankEntry "c" 7;
                         RankEntry "d" 6; RankEntry "e" 5]))).
Proof.
  apply (saveScore_full_table _ "f" 5 (RankEntry "e" 5)); [|reflexivity|cbn; lia].
  cbn. repeat split; intros b Hb; repeat (destruct Hb as [<-|Hb]; [cbn; lia|]);
    destruct Hb.
Defined.

(** X13: the first stored entry has the highest score among the old
    entries and the new one: the best score is never lost. *)
Theorem saveScore_top_is_best st trimmed sc :
  exists top first,
    saveScore st trimmed sc = Some top /\
    top !! 0%nat = Some first /\
    forall b, In b (loadRanking st ++ [RankEntry (playerName trimmed) sc]) ->
              score b <= score first.
Proof.
  unfold saveScore. cbv zeta.
  set (all := loadRanking st ++ [RankEntry (playerName trimmed) sc]).
  pose proof (sortDesc_perm all) as Hperm.
  pose proof (sortDesc_descending all) as Hd.
  destruct (sortDesc all) as [|first rest] eqn:E.
  { apply Permutation_nil_l in Hperm. subst all.
    now destruct (loadRanking st). }
  exists (take 5 (first :: rest)), first.
  split; [reflexivity|]. split; [reflexivity|].
  intros b Hb. apply list_elem_of_In in Hb. rewrite <- Hperm in Hb.
  apply elem_of_cons in Hb as [->|Hb]; [lia|].
  destruct Hd as [Hfirst _]. apply Hfirst, list_elem_of_In, Hb.
Qed.

(** ** The cache and the world over a session *)

Section Session.

Context {num : Type} `{JsNumber num}.
Variable fromVertices : list (@vertex num) -> bool.
Variable decode : string -> image.
Variable innerWidth : Z.
Variable nneg : num -> num.

Local Abbreviation spawn := (spawnNewBody fromVertices innerWidth).
Local Abbreviation loaded := (onload fromVertices decode innerWidth).
Local Abbreviation run1 := (handle fromVertices decode innerWidth).
Local Abbreviation runAll := (handleAll fromVertices decode innerWidth).
Local Abbreviation sound := (coherent fromVertices decode innerWidth).

Lemma reachable_sound es g :
  runAll initial es = Returns g -> sound g.
Proof.
  intros Hrun.
  destruct (handleAll_sound fromVertices decode innerWidth es initial [])
    as (g0 & Hrun0 & Hsound & _).
  - unfold coherent, initial, extractions. cbn [vertexCache world extracted].
    split; [intros a e; rewrite lookup_empty; discriminate|].
    split; [intros bd []|]. intros a. now rewrite lookup_empty.
  - intros a. unfold initial, extractions, pendingLoads.
    cbn [extracted loading]. rewrite filter_nil. cbn [length]. lia.
  - rewrite Hrun in Hrun0. now injection Hrun0 as <-.
Qed.

Lemma handleAll_app es1 : forall g es2,
  runAll g (es1 ++ es2) =
  match runAll g es1 with
  | Diverges => Diverges
  | Returns g1 => runAll g1 es2
  end.
Proof.
  induction es1 as [|e es1 IH]; intros g es2; [reflexivity|].
  cbn [app handleAll]. destruct (run1 g e) as [|g1]; [reflexivity | apply IH].
Qed.

Lemma handle_cache_mono g ev g' a :
  run1 g ev = Returns g' ->
  is_Some (vertexCache g !! a) -> is_Some (vertexCache g' !! a).
Proof.
  destruct ev as [a0|i|a0|]; cbn [handle].
  - intros [= <-]. unfold spawnNewBody.
    destruct (gameOver g); [auto|]. now destruct (vertexCache g !! a0).
  - unfold onload. destruct (loading g !! i) as [a0|]; [|now intros [= <-]].
    cbn [gameOver]. destruct (gameOver g); [now intros [= <-]|].
    destruct (entryOf (decode a0)) as [|d]; [discriminate|].
    intros [= <-] Hsome. cbn [createBody vertexCache].
    rewrite lookup_insert. case_decide; [eauto | exact Hsome].
  - intros [= <-]. unfold startGame, spawnNewBody. cbn [gameOver vertexCache].
    now destruct (vertexCache g !! a0).
  - intros [= <-]. unfold endGame. now destruct (gameOver g).
Qed.

Lemma handleAll_cache_mono es : forall g g' a,
  runAll g es = Returns g' ->
  is_Some (vertexCache g !! a) -> is_Some (vertexCache g' !! a).
Proof.
  induction es as [|ev es IH]; intros g g' a Hrun Hsome.
  - now injection Hrun as <-.
  - cbn [handleAll] in Hrun. destruct (run1 g ev) as [|g1] eqn:E; [discriminate|].
    eapply IH; [exact Hrun|]. eapply handle_cache_mono; eassumption.
Qed.

(** X14: a cached entry is never removed or changed: whatever happens
    later in the session, the asset stays cached with the same entry. *)
Theorem cache_entries_persist es es' g g' a e :
  runAll initial es = Returns g ->
  vertexCache g !! a = Some e ->
  runAll g es' = Returns g' ->
  vertexCache g' !! a = Some e.
Proof.
  intros Hrun Hhit Hrun'.
  assert (Hall : runAll initial (es ++ es') = Returns g').
  { rewrite handleAll_app, Hrun. exact Hrun'. }
  destruct (reachable_sound _ _ Hrun) as (Hc & _).
  destruct (reachable_sound _ _ Hall) as (Hc' & _).
  destruct (handleAll_cache_mono es' g g' a Hrun' ltac:(eauto)) as [e' He'].
  pose proof (Hc _ _ Hhit) as E1. pose proof (Hc' _ _ He') as E2.
  rewrite E1 in E2. injection E2 as <-. exact He'.
Qed.

(** X15: when a load completes for an asset that is already cached, the
    entry it writes equals the cached one: the cache is left unchanged. *)
Theorem duplicate_load_keeps_cache es g i a e :
  runAll initial es = Returns g ->
  loading g !! i = Some a ->
  vertexCache g !! a = Some e ->
  exists g', loaded g i = Returns g' /\ vertexCache g' = vertexCache g.
Proof.
  intros Hrun Hload Hhit.
  destruct (reachable_sound _ _ Hrun) as (Hc & _).
  unfold onload. rewrite Hload. cbn [gameOver].
  destruct (gameOver g); [eexists; split; reflexivity|].
  rewrite (Hc _ _ Hhit). eexists. split; [reflexivity|].
  cbn [createBody vertexCache]. now apply insert_id.
Qed.

(** X16: once the game is over, requests and completing loads change
    neither the cache, nor the world, nor the held body, and run no
    extraction, until the game is started again. *)
Theorem game_over_freezes es : forall g,
  gameOver g = true ->
  Forall (fun ev => match ev with Start _ => False | _ => True end) es ->
  exists g', handleAll fromVertices decode innerWidth g es = Returns g' /\
    gameOver g' = true /\
    vertexCache g' = vertexCache g /\
    world g' = world g /\
    currentBody g' = currentBody g /\
    extracted g' = extracted g.
Proof.
  induction es as [|ev es IH]; intros g Hover Hev.
  - exists g. now repeat split.
  - inversion Hev as [|? ? Hhead Htail]; subst.
    assert (Hstep : exists g1, run1 g ev = Returns g1 /\
              gameOver g1 = true /\ vertexCache g1 = vertexCache g /\
              world g1 = world g /\ currentBody g1 = currentBody g /\
              extracted g1 = extracted g).
    { destruct ev as [a0|i|a0|]; cbn [handle].
      - unfold spawnNewBody. rewrite Hover. exists g. now repeat split.
      - unfold onload. destruct (loading g !! i) as [a0|].
        + cbn [gameOver]. rewrite Hover. eexists. now repeat split.
        + exists g. now repeat split.
      - destruct Hhead.
      - unfold endGame. rewrite Hover. exists g. now repeat split. }
    destruct Hstep as (g1 & Hrun1 & Hover1 & Hc1 & Hw1 & Hb1 & He1).
    destruct (IH g1 Hover1 Htail) as (g' & Hrun' & Hover' & Hc' & Hw' & Hb' & He').
    exists g'. cbn [handleAll]. rewrite Hrun1.
    split; [exact Hrun'|]. split; [exact Hover'|]. repeat split; congruence.
Qed.

Lemma createdBody_sprite x y a (e : entry) :
  sprite (createdBody fromVertices x y a e) = Sprite a (scale e) (scale e).
Proof.
  unfold createdBody. destruct (vertices e) as [vs|]; [destruct (fromVertices vs)|];
    reflexivity.
Qed.

Lemma handle_world_cached g ev g' :
  run1 g ev = Returns g' ->
  (forall bd, In bd (world g) -> is_Some (vertexCache g !! texture (sprite bd))) ->
  forall bd, In bd (world g') -> is_Some (vertexCache g' !! texture (sprite bd)).
Proof.
  intros Hrun Hinv bd.
  destruct ev as [a0|i|a0|]; cbn [handle] in Hrun.
  - injection Hrun as <-. unfold spawnNewBody.
    destruct (gameOver g); [apply Hinv|].
    destruct (vertexCache g !! a0) as [d|] eqn:Ehit; [|apply Hinv].
    cbn [createBody world vertexCache]. rewrite in_app_iff.
    intros [Hin|[<-|[]]]; [now apply Hinv|].
    rewrite createdBody_texture, Ehit. eauto.
  - unfold onload in Hrun. destruct (loading g !! i) as [a0|];
      [|injection Hrun as <-; apply Hinv].
    cbn [gameOver] in Hrun. destruct (gameOver g);
      [injection Hrun as <-; apply Hinv|].
    destruct (entryOf (decode a0)) as [|d]; [discriminate|].
    injection Hrun as <-. cbn [createBody world vertexCache]. rewrite in_app_iff.
    intros [Hin|[<-|[]]].
    + rewrite lookup_insert. case_decide; [eauto | now apply Hinv].
    + rewrite createdBody_texture, lookup_insert_eq. eauto.
  - injection Hrun as <-. unfold startGame, spawnNewBody.
    cbn [gameOver vertexCache].
    destruct (vertexCache g !! a0) as [d|] eqn:Ehit; [|intros []].
    cbn [createBody world vertexCache app].
    intros [<-|[]]. rewrite createdBody_texture, Ehit. eauto.
  - injection Hrun as <-. unfold endGame. destruct (gameOver g); apply Hinv.
Qed.

Lemma handleAll_world_cached es : forall g g',
  runAll g es = Returns g' ->
  (forall bd, In bd (world g) -> is_Some (vertexCache g !! texture (sprite bd))) ->
  forall bd, In bd (world g') -> is_Some (vertexCache g' !! texture (sprite bd)).
Proof.
  induction es as [|ev es IH]; intros g g' Hrun Hinv.
  - now injection Hrun as <-.
  - cbn [handleAll] in Hrun. destruct (run1 g ev) as [|g1] eqn:E; [discriminate|].
    eapply IH; [exact Hrun|]. eapply handle_world_cached; eassumption.
Qed.

(** X17: the render handler draws every body of the world: its texture is
    cached, and the image is drawn centred with size [img.width * scale] by
    [img.height * scale], the scale of the cache entry, which is the size
    of the fallback rectangle. *)
Theorem bodies_are_drawn es g bd :
  runAll initial es = Returns g ->
  In bd (world g) ->
  exists e,
    vertexCache g !! texture (sprite bd) = Some e /\
    Play.drawImageArgs nneg g bd =
      Some (ndiv (nmul (nneg (ofZ (width (img e)))) (scale e)) (ofZ 2),
            ndiv (nmul (nneg (ofZ (height (img e)))) (scale e)) (ofZ 2),
            nmul (ofZ (width (img e))) (scale e),
            nmul (ofZ (height (img e))) (scale e)) /\
    (bodyShape bd = Rectangle (nmul (ofZ (width (img e))) (scale e))
                              (nmul (ofZ (height (img e))) (scale e)) \/
     exists vs, vertices e = Some vs /\ bodyShape bd = Polygon vs).
Proof.
  intros Hrun Hin.
  destruct (reachable_sound _ _ Hrun) as (Hc & Hw & _).
  destruct (handleAll_world_cached es initial g Hrun ltac:(intros ? []) bd Hin)
    as [e He].
  destruct (Hw bd Hin) as (e' & He' & Hbd).
  rewrite (Hc _ _ He) in He'. injection He' as <-.
  exists e. split; [exact He|].
  assert (Hsprite : sprite bd = Sprite (texture (sprite bd)) (scale e) (scale e)).
  { rewrite Hbd at 1. apply createdBody_sprite. }
  split.
  - unfold Play.drawImageArgs. rewrite He. cbv zeta.
    rewrite Hsprite. reflexivity.
  - rewrite Hbd. unfold createdBody.
    destruct (vertices e) as [vs|]; [destruct (fromVertices vs)|]; cbn [bodyShape];
      eauto.
Qed.

End Session.

Lemma cache_entries_persist_witness :
  exists g g' e,
    demoSession [Spawn "assets/1.png"; Loaded 0] = Returns g /\
    handleAll demoFromVertices demoDecode 800 g [Over; Start "assets/2.png"]
      = Returns g' /\
    vertexCache g' !! "assets/1.png" = Some e.
Proof.
  eexists _, _, _.
  split; [vm_compute; reflexivity|].
  split; [vm_compute; reflexivity|].
  eapply (cache_entries_persist demoFromVertices demoDecode 800
            [Spawn "assets/1.png"; Loaded 0] [Over; Start "assets/2.png"]);
    vm_compute; reflexivity.
Defined.

Lemma duplicate_load_keeps_cache_witness :
  exists g g',
    demoSession [Spawn "assets/1.png"; Spawn "assets/1.png"; Loaded 0] = Returns g /\
    onload demoFromVertices demoDecode 800 g 0 = Returns g' /\
    vertexCache g' = vertexCache g.
Proof.
  destruct (demoSession [Spawn "assets/1.png"; Spawn "assets/1.png"; Loaded 0])
    as [|g] eqn:Hrun; [vm_compute in Hrun; discriminate|].
  assert (Hload : loading g !! 0%nat = Some "assets/1.png").
  { vm_compute in Hrun. injection Hrun as <-. reflexivity. }
  destruct (vertexCache g !! "assets/1.png") as [e|] eqn:Ehit.
  2:{ vm_compute in Hrun. injection Hrun as <-. vm_compute in Ehit. discriminate. }
  destruct (duplicate_load_keeps_cache demoFromVertices demoDecode 800
              _ g 0 "assets/1.png" e Hrun Hload Ehit) as (g' & Hg' & Hsame).
  exists g, g'. split; [reflexivity|]. split; [exact Hg' | exact Hsame].
Defined.

Lemma game_over_freezes_witness :
  exists g g',
    demoSession [Spawn "assets/1.png"; Over] = Returns g /\
    handleAll demoFromVertices demoDecode 800 g [Loaded 0; Spawn "assets/2.png"]
      = Returns g' /\
    vertexCache g' = vertexCache g /\ world g' = world g.
Proof.
  destruct (demoSession [Spawn "assets/1.png"; Over])
    as [|g] eqn:Hrun; [vm_compute in Hrun; discriminate|].
  assert (Hover : gameOver g = true).
  { vm_compute in Hrun. injection Hrun as <-. reflexivity. }
  destruct (game_over_freezes demoFromVertices demoDecode 800
              [Loaded 0; Spawn "assets/2.png"] g Hover)
    as (g' & Hg' & _ & Hc & Hw & _).
  - repeat constructor.
  - exists g, g'. split; [reflexivity|]. split; [exact Hg'|].
    split; [exact Hc | exact Hw].
Defined.

Lemma bodies_are_drawn_witness :
  exists g bd e,
    demoSession [Spawn "assets/1.png"; Loaded 0] = Returns g /\
    In bd (world g) /\
    vertexCache g !! texture (sprite bd) = Some e.
Proof.
  destruct (demoSession [Spawn "assets/1.png"; Loaded 0])
    as [|g] eqn:Hrun; [vm_compute in Hrun; discriminate|].
  destruct (world g) as [|bd rest] eqn:Ew.
  { vm_compute in Hrun. injection Hrun as <-. discriminate. }
  assert (Hin : In bd (world g)) by (rewrite Ew; now left).
  destruct (bodies_are_drawn demoFromVertices demoDecode 800 Qopp _ g bd Hrun Hin)
    as (e & He & _).
  exists g, bd, e. split; [reflexivity|]. split; [exact Hin | exact He].
Defined.

(** ** The pointer handler *)

(** X18: when the [mousemove] handler moves the held body, the game is
    running with a body held and not dropping, the body goes to height
    100, and its [x] is the pointer's clamped to [50 .. width - 50]; in a
    window narrower than 100 the upper bound [width - 50] wins. *)
Theorem mousemove_clamped {num : Type} gameStarted (g : @game num) w clientX x y :
  Play.mousemove gameStarted g w clientX = Some (x, y) ->
  (gameStarted = true /\ is_Some (currentBody g) /\
   isDropping g = false /\ gameOver g = false) /\
  y = 100 /\
  x <= w - 50 /\
  (100 <= w -> 50 <= x) /\
  (50 <= clientX <= w - 50 -> x = clientX) /\
  (w < 100 -> x = w - 50).
Proof.
  unfold Play.mousemove. intros Hmove.
  destruct gameStarted; [|discriminate].
  destruct (bool_decide (is_Some (currentBody g))) eqn:Eb; [|discriminate].
  destruct (isDropping g); [discriminate|].
  destruct (gameOver g); [discriminate|].
  cbn in Hmove. injection Hmove as <- <-.
  apply bool_decide_eq_true in Eb.
  split; [auto|]. unfold Play.clampX. repeat split; lia.
Qed.

Lemma mousemove_clamped_witness :
  exists g,
    demoSession [Spawn "assets/1.png"; Loaded 0] = Returns g /\
    750 <= 800 - 50.
Proof.
  destruct (demoSession [Spawn "assets/1.png"; Loaded 0])
    as [|g] eqn:Hrun; [vm_compute in Hrun; discriminate|].
  exists g. split; [reflexivity|].
  apply (mousemove_clamped true g 800 900 750 100).
  vm_compute in Hrun. injection Hrun as <-. reflexivity.
Defined.

(** ** Seed search and order of the kept points *)

(** X19: with a positive step the seed search returns, and it returns
    [(sx, sy)] exactly when that is the first solid grid point in row-major
    order, and nothing exactly when no grid point is solid. *)
Theorem seed_search_spec img s :
  0 < s ->
  (exists r, findSeed img s = Returns r) /\
  (forall sx sy, findSeed img s = Returns (Some (Point sx sy)) <->
                 firstSolidSample img s sx sy) /\
  (findSeed img s = Returns None <->
   forall x y, sampled img s x y -> getVal img x y = 0).
Proof.
  intros Hs. split; [now apply findSeed_returns|]. split.
  - intros sx sy. split.
    + intros Hseed. apply (findSeed_Some _ _ _ Hs Hseed).
    + now apply findSeed_first.
  - split; [now apply findSeed_None|].
    intros Hempty. destruct (findSeed_returns img s Hs) as [[p|] Hr]; [|exact Hr].
    destruct (findSeed_Some _ _ _ Hs Hr) as (Hsam & Hsolid & _).
    specialize (Hempty _ _ Hsam). congruence.
Qed.

Lemma seed_search_spec_witness :
  exists r, findSeed (opaqueSquare 8) 4 = Returns r.
Proof. apply (seed_search_spec (opaqueSquare 8) 4). lia. Defined.

Lemma keepFrom_sublist l : forall q, sublist (keepFrom q l) l.
Proof.
  induction l as [|p l IH]; intros q; cbn [keepFrom]; [constructor|].
  destruct (far q p); [apply sublist_skip | apply sublist_cons]; apply IH.
Qed.

(** X20: the simplified path is a subsequence of the traced path: the
    filter drops points, and never reorders, repeats or invents one. *)
Theorem simplify_sublist P : sublist (simplify P) P.
Proof.
  destruct P as [|p0 rest]; [constructor|].
  rewrite simplify_cons. apply sublist_skip, keepFrom_sublist.
Qed.
